(** * network/tunnel/default.go: the session-multiplexing tunnel

    A shallow embedding of [tun] (the socket table, Connect/Close, Dial/Listen
    and the two forwarding loops), together with the pieces of the Go runtime
    and standard library that the file relies on: channels used as one-shot
    signals, bounded message queues, maps that may be nil, [crypto/sha256]
    and the ["%x"] verb of [fmt.Sprintf].

    A call of Connect, Close, Dial or Listen and a turn of either loop is
    one function on the state; what the outside decides (the answer of
    [link.Send], the result of [link.Recv], which ready case of a [select]
    the runtime picks) is an argument. The mutex of [tun] only orders these
    steps and is left out. *)

From Stdlib Require Import ZArith List Ascii String Lia Bool.
From stdpp Require Import base option list gmap strings fin_maps.
Import ListNotations.

Local Open Scope Z_scope.

(* ===================================================================== *)
(** ** crypto/sha256 (FIPS 180-4), on uint32 words held in [Z]            *)
(* ===================================================================== *)

Module Sha256.

(** A uint32 result wraps around at 2^32. *)
Definition u32 (x : Z) : Z := x mod 2 ^ 32.

(** [bits.RotateLeft32 (x, -n)]: rotation to the right by [n] bits. *)
Definition rotr (n x : Z) : Z :=
  Z.lor (Z.shiftr x n) (u32 (Z.shiftl x (32 - n))).

(** [^x] on a uint32. *)
Definition not32 (x : Z) : Z := Z.lxor x 0xffffffff.

(** The round constants [_K], in decimal. *)
Definition _K : list Z :=
  [
    1116352408; 1899447441; 3049323471; 3921009573;
    961987163; 1508970993; 2453635748; 2870763221;
    3624381080; 310598401; 607225278; 1426881987;
    1925078388; 2162078206; 2614888103; 3248222580;
    3835390401; 4022224774; 264347078; 604807628;
    770255983; 1249150122; 1555081692; 1996064986;
    2554220882; 2821834349; 2952996808; 3210313671;
    3336571891; 3584528711; 113926993; 338241895;
    666307205; 773529912; 1294757372; 1396182291;
    1695183700; 1986661051; 2177026350; 2456956037;
    2730485921; 2820302411; 3259730800; 3345764771;
    3516065817; 3600352804; 4094571909; 275423344;
    430227734; 506948616; 659060556; 883997877;
    958139571; 1322822218; 1537002063; 1747873779;
    1955562222; 2024104815; 2227730452; 2361852424;
    2428436474; 2756734187; 3204031479; 3329325298
  ].

(** The eight chaining words [h[0] .. h[7]] of a digest. *)
Record digest := Digest {
  h0 : Z; h1 : Z; h2 : Z; h3 : Z; h4 : Z; h5 : Z; h6 : Z; h7 : Z
}.

(** [init0 .. init7]. *)
Definition init : digest :=
  Digest 0x6a09e667 0xbb67ae85 0x3c6ef372 0xa54ff53a
         0x510e527f 0x9b05688c 0x1f83d9ab 0x5be0cd19.

(** [w[i] = uint32(p[j])<<24 | uint32(p[j+1])<<16 | uint32(p[j+2])<<8 | uint32(p[j+3])]
    for the sixteen words of one 64-byte chunk. *)
Fixpoint be_words (n : nat) (p : list Z) : list Z :=
  match n with
  | O => []
  | S n' =>
      match p with
      | b3 :: b2 :: b1 :: b0 :: p' =>
          Z.lor (Z.lor (Z.lor (Z.shiftl b3 24) (Z.shiftl b2 16)) (Z.shiftl b1 8)) b0
            :: be_words n' p'
      | _ => []
      end
  end.

Definition wd (w : list Z) (i : nat) : Z := nth i w 0.

(** The message schedule: [w[i] = t1 + w[i-7] + t2 + w[i-16]] for [i] from
    16 to 63; [w] grows at its end, so [i] is its current length. *)
Fixpoint schedule (n : nat) (w : list Z) : list Z :=
  match n with
  | O => w
  | S n' =>
      let i := length w in
      let v1 := wd w (i - 2) in
      let t1 := Z.lxor (Z.lxor (rotr 17 v1) (rotr 19 v1)) (Z.shiftr v1 10) in
      let v2 := wd w (i - 15) in
      let t2 := Z.lxor (Z.lxor (rotr 7 v2) (rotr 18 v2)) (Z.shiftr v2 3) in
      schedule n' (w ++ [u32 (t1 + wd w (i - 7) + t2 + wd w (i - 16))])
  end.

(** One round of the compression loop on the working variables. *)
Definition round (v : digest) (kw : Z * Z) : digest :=
  let '(Digest a b c d e f g h) := v in
  let t1 := u32 (h + Z.lxor (Z.lxor (rotr 6 e) (rotr 11 e)) (rotr 25 e)
                   + Z.lxor (Z.land e f) (Z.land (not32 e) g)
                   + fst kw + snd kw) in
  let t2 := u32 (Z.lxor (Z.lxor (rotr 2 a) (rotr 13 a)) (rotr 22 a)
                 + Z.lxor (Z.lxor (Z.land a b) (Z.land a c)) (Z.land b c)) in
  Digest (u32 (t1 + t2)) a b c (u32 (d + t1)) e f g.

(** [blockGeneric] on one chunk of 64 bytes. *)
Definition block1 (dig : digest) (p : list Z) : digest :=
  let w := schedule 48 (be_words 16 p) in
  let v := fold_left round (combine _K w) dig in
  Digest (u32 (h0 dig + h0 v)) (u32 (h1 dig + h1 v))
         (u32 (h2 dig + h2 v)) (u32 (h3 dig + h3 v))
         (u32 (h4 dig + h4 v)) (u32 (h5 dig + h5 v))
         (u32 (h6 dig + h6 v)) (u32 (h7 dig + h7 v)).

(** [for len(p) >= chunk { ...; p = p[chunk:] }], over [n] chunks. *)
Fixpoint block (n : nat) (dig : digest) (p : list Z) : digest :=
  match n with
  | O => dig
  | S n' => block n' (block1 dig (firstn 64 p)) (skipn 64 p)
  end.

(** The eight bytes of a uint64, most significant first. *)
Definition be_uint64 (x : Z) : list Z :=
  map (fun k => Z.shiftr x (8 * k) mod 256) [7; 6; 5; 4; 3; 2; 1; 0].

(** [checkSum]: a byte 0x80, zeros up to 56 mod 64, then the length in
    bits. *)
Definition pad (msg : list Z) : list Z :=
  let len := Z.of_nat (length msg) in
  msg ++ [0x80] ++ repeat 0 (Z.to_nat ((55 - len) mod 64)) ++ be_uint64 (8 * len).

(** The four bytes of a uint32, most significant first. *)
Definition be_uint32 (x : Z) : list Z :=
  [Z.shiftr x 24 mod 256; Z.shiftr x 16 mod 256; Z.shiftr x 8 mod 256; x mod 256].

Definition digest_bytes (d : digest) : list Z :=
  be_uint32 (h0 d) ++ be_uint32 (h1 d) ++ be_uint32 (h2 d) ++ be_uint32 (h3 d) ++
  be_uint32 (h4 d) ++ be_uint32 (h5 d) ++ be_uint32 (h6 d) ++ be_uint32 (h7 d).

(** [h := sha256.New(); h.Write(msg); h.Sum(nil)]. *)
Definition Sum (msg : list Z) : list Z :=
  let p := pad msg in
  digest_bytes (block (length p / 64)%nat init p).

End Sha256.

(* ===================================================================== *)
(** ** Go strings and fmt.Sprintf("%x", bytes)                            *)
(* ===================================================================== *)

(** [[]byte(s)]: a Go string is its bytes. *)
Definition bytes_of (s : string) : list Z :=
  map (fun c => Z.of_N (N_of_ascii c)) (list_ascii_of_string s).

(** The digit table of package fmt. *)
Definition ldigits : list ascii :=
  list_ascii_of_string "0123456789abcdef".

Definition hexdigit (n : Z) : ascii := nth (Z.to_nat n) ldigits "?"%char.

(** The verb [%x] on a byte slice: two lower-case digits per byte. *)
Definition sprintf_x (bs : list Z) : string :=
  string_of_list_ascii
    (flat_map (fun b => [hexdigit (Z.shiftr b 4); hexdigit (Z.land b 15)]) bs).

(** The routing key of an identifier, as [newSocket] computes it. *)
Definition hash_id (id : string) : string :=
  sprintf_x (Sha256.Sum (bytes_of id)).

(* ===================================================================== *)
(** ** The Go runtime pieces the tunnel uses                              *)
(* ===================================================================== *)

(** A goroutine either carries on or dies in a run-time panic. *)
Inductive result (A : Type) : Type :=
  | Ok (a : A)
  | Panic (why : string).
Arguments Ok {A} a.
Arguments Panic {A} why.

Definition result_bind {A B} (f : A -> result B) (m : result A) : result B :=
  match m with
  | Ok a => f a
  | Panic why => Panic why
  end.

Notation "x <- m ;; k" := (result_bind (fun x => k) m)
  (at level 100, m at next level, right associativity,
   format "'[v' x  <-  m  ;;  '/' k ']'").

(** A [chan bool] on which nobody ever sends, used as a one-shot signal.
    The zero value of a channel type is the nil channel; [make] gives an
    open one; [close] turns an open one into a closed one. *)
Inductive signal := SigNil | SigOpen | SigClosed.

(** [case <-c:] can proceed exactly when [c] is closed: a receive from a nil
    channel, or from an open one with no sender, never does. *)
Definition sig_ready (c : signal) : bool :=
  match c with
  | SigClosed => true
  | SigNil | SigOpen => false
  end.

(** [close(c)]. *)
Definition sig_close (c : signal) : result signal :=
  match c with
  | SigOpen => Ok SigClosed
  | SigNil => Panic "close of nil channel"
  | SigClosed => Panic "close of closed channel"
  end.

(** A [select] statement: among the cases that can proceed one is chosen by
    the runtime; if none can, the [default] case when there is one, and
    otherwise the statement blocks (the empty list). *)
Definition select_choices {A} (cases : list (bool * A)) (dflt : option A) : list A :=
  match filter (fun c => Is_true (fst c)) cases with
  | [] => match dflt with Some d => [d] | None => [] end
  | ready => map snd ready
  end.

(** A [map[string]string], which may be nil. Reading a missing key, or any
    key of a nil map, gives the zero value; writing to a nil map panics. *)
Inductive header :=
  | HNil
  | HMap (m : gmap string string).

Definition hget (h : header) (k : string) : string :=
  match h with
  | HNil => ""
  | HMap m => default ""%string (m !! k)
  end.

Definition hset (k v : string) (h : header) : result header :=
  match h with
  | HNil => Panic "assignment to entry in nil map"
  | HMap m => Ok (HMap (<[k:=v]> m))
  end.

(** [transport.Message]. *)
Record Message := mkMessage {
  Header : header;
  Body : list Z
}.

(** The tunnel's internal envelope, [message{id, session, data}]. *)
Record message := mkmessage {
  m_id : string;
  m_session : string;
  m_data : Message
}.

(** A buffered [chan *message] of capacity 128 is the list of the messages
    it holds, oldest first. *)
Definition chan_cap : nat := 128.

(** [select { case c <- m: default: }]: the send proceeds when the buffer has
    room; otherwise the default case runs and [m] is dropped. *)
Definition try_send (c : list message) (m : message) : list message :=
  if (length c <? chan_cap)%nat then c ++ [m] else c.

(* ===================================================================== *)
(** ** The data model                                                     *)
(* ===================================================================== *)

(** Sockets live on the heap and are passed around as [*socket]. *)
Abbreviation ptr := nat (only parsing).

Record socket := mksocket {
  s_id : string;            (* socket id based on Micro-Tunnel-Id *)
  s_session : string;       (* the session id *)
  s_closed : signal;
  s_remote : string;
  s_local : string;
  s_recv : list message;    (* chan *message, capacity 128 *)
  s_wait : signal           (* closed when the first message has arrived *)
}.
(* The field [send] of a socket is always the tunnel's own [send] channel
   ([send: t.send]); it is the field [send] of the state below. *)

Record tunListener := mktunListener {
  tl_addr : string;
  tl_accept : list ptr;     (* chan *socket, capacity 128 *)
  tl_closed : signal;
  tl_conn : ptr;
  tl_socket : ptr
}.

Inductive goroutine :=
  | GoProcess               (* go t.process() *)
  | GoListen                (* go t.listen() *)
  | GoListener (tl : tunListener).  (* go tl.process() *)

(** The tunnel [tun] with what it points to: its link (the two addresses the
    link reports and the messages handed to [link.Send] so far), the heap of
    sockets, the source of random UUIDs and the goroutines started. *)
Record state := mkstate {
  link_Local : string;
  link_Remote : string;
  link_sent : list Message;
  connected : bool;
  send : list message;      (* chan *message, capacity 128 *)
  closed : signal;
  sockets : gmap string ptr;
  heap : gmap ptr socket;
  next : ptr;
  uuid_src : nat -> string;
  uuid_next : nat;
  spawned : list goroutine
}.

Definition set_link_sent (v : list Message) (st : state) : state :=
  mkstate (link_Local st) (link_Remote st) v (connected st) (send st) (closed st)
          (sockets st) (heap st) (next st) (uuid_src st) (uuid_next st) (spawned st).

Definition set_connected (v : bool) (st : state) : state :=
  mkstate (link_Local st) (link_Remote st) (link_sent st) v (send st) (closed st)
          (sockets st) (heap st) (next st) (uuid_src st) (uuid_next st) (spawned st).

Definition set_send (v : list message) (st : state) : state :=
  mkstate (link_Local st) (link_Remote st) (link_sent st) (connected st) v (closed st)
          (sockets st) (heap st) (next st) (uuid_src st) (uuid_next st) (spawned st).

Definition set_closed (v : signal) (st : state) : state :=
  mkstate (link_Local st) (link_Remote st) (link_sent st) (connected st) (send st) v
          (sockets st) (heap st) (next st) (uuid_src st) (uuid_next st) (spawned st).

Definition set_sockets (v : gmap string ptr) (st : state) : state :=
  mkstate (link_Local st) (link_Remote st) (link_sent st) (connected st) (send st) (closed st)
          v (heap st) (next st) (uuid_src st) (uuid_next st) (spawned st).

Definition set_heap (v : gmap ptr socket) (st : state) : state :=
  mkstate (link_Local st) (link_Remote st) (link_sent st) (connected st) (send st) (closed st)
          (sockets st) v (next st) (uuid_src st) (uuid_next st) (spawned st).

Definition set_next (v : ptr) (st : state) : state :=
  mkstate (link_Local st) (link_Remote st) (link_sent st) (connected st) (send st) (closed st)
          (sockets st) (heap st) v (uuid_src st) (uuid_next st) (spawned st).

Definition set_uuid_next (v : nat) (st : state) : state :=
  mkstate (link_Local st) (link_Remote st) (link_sent st) (connected st) (send st) (closed st)
          (sockets st) (heap st) (next st) (uuid_src st) v (spawned st).

Definition set_spawned (v : list goroutine) (st : state) : state :=
  mkstate (link_Local st) (link_Remote st) (link_sent st) (connected st) (send st) (closed st)
          (sockets st) (heap st) (next st) (uuid_src st) (uuid_next st) v.

Definition set_s_closed (v : signal) (s : socket) : socket :=
  mksocket (s_id s) (s_session s) v (s_remote s) (s_local s) (s_recv s) (s_wait s).

Definition set_s_remote (v : string) (s : socket) : socket :=
  mksocket (s_id s) (s_session s) (s_closed s) v (s_local s) (s_recv s) (s_wait s).

Definition set_s_local (v : string) (s : socket) : socket :=
  mksocket (s_id s) (s_session s) (s_closed s) (s_remote s) v (s_recv s) (s_wait s).

Definition set_s_recv (v : list message) (s : socket) : socket :=
  mksocket (s_id s) (s_session s) (s_closed s) (s_remote s) (s_local s) v (s_wait s).

Definition set_s_wait (v : signal) (s : socket) : socket :=
  mksocket (s_id s) (s_session s) (s_closed s) (s_remote s) (s_local s) (s_recv s) v.

(** A write through a [*socket]. *)
Definition update_socket (p : ptr) (f : socket -> socket) (st : state) : state :=
  set_heap (alter f p (heap st)) st.

(** A read through a [*socket]; a pointer to nothing is the nil pointer. *)
Definition deref (p : ptr) (st : state) : result socket :=
  match heap st !! p with
  | Some s => Ok s
  | None => Panic "invalid memory address or nil pointer dereference"
  end.

(** [uuid.New().String()]: the next identifier of the random source. *)
Definition uuid_New (st : state) : string * state :=
  (uuid_src st (uuid_next st), set_uuid_next (S (uuid_next st)) st).

(* ===================================================================== *)
(** ** The tunnel                                                         *)
(* ===================================================================== *)

(** [newTunnel(link)]; the link is given by its two addresses, the random
    source by the identifiers it will hand out. *)
Definition newTunnel (local remote : string) (uuids : nat -> string) : state :=
  {| link_Local := local; link_Remote := remote; link_sent := [];
     connected := false;
     send := [];
     closed := SigOpen;
     sockets := ∅;
     heap := ∅; next := O; uuid_src := uuids; uuid_next := O; spawned := [] |}.

(** [getSocket] returns a socket from the internal socket map. *)
Definition getSocket (id : string) (st : state) : option ptr :=
  sockets st !! id.

Definition newSession (st : state) : string * state := uuid_New st.

(** [newSocket] creates a new socket and saves it. The composite literal
    names [id], [session], [closed], [recv] and [send]; the fields it leaves
    out, [remote], [local] and [wait], get their zero values. *)
Definition newSocket (id : string) (st : state) : ptr * state :=
  let '(id, st) :=
    if (String.length id =? 0)%nat then uuid_New st else (id, st) in
  let id := hash_id id in
  let '(session, st) := newSession st in
  let s := {| s_id := id; s_session := session;
              s_closed := SigOpen;
              s_recv := [];
              s_remote := ""; s_local := ""; s_wait := SigNil |} in
  let p := next st in
  let st := set_next (S p) (set_heap (<[p:=s]> (heap st)) st) in
  (p, set_sockets (<[id:=p]> (sockets st)) st).

(** Whether a loop goes round again or its goroutine returns. *)
Inductive flow := Continue | Return.

(** The cases of the [select] in [process] that can proceed: a message at the
    head of [t.send], or the closed [t.closed]. *)
Inductive process_case :=
  | PSend (msg : message)
  | PClosed.

Definition process_ready (st : state) : list process_case :=
  select_choices
    (match send st with
     | msg :: _ => [(true, PSend msg)]
     | [] => []
     end ++ [(sig_ready (closed st), PClosed)])
    None.

(** [t.link.Send(nmsg)]: the message is handed to the link, which may answer
    with an error. *)
Definition link_Send (nmsg : Message) (err : option string) (st : state)
  : option string * state :=
  (err, set_link_sent (link_sent st ++ [nmsg]) st).

(** One turn of the loop of [process], in the case the runtime chose;
    [err] is what the link answers to [Send]. *)
Definition process (k : process_case) (err : option string) (st : state)
  : result (state * flow) :=
  match k with
  | PSend msg =>
      let st := set_send (List.tl (send st)) st in
      let nmsg := {| Header := Header (m_data msg); Body := Body (m_data msg) |} in
      (* set the tunnel id on the outgoing message *)
      h <- hset "Micro-Tunnel-Id" (m_id msg) (Header nmsg) ;;
      (* set the session id *)
      h <- hset "Micro-Tunnel-Session" (m_session msg) h ;;
      let nmsg := {| Header := h; Body := Body nmsg |} in
      (* send the message via the interface *)
      let '(err, st) := link_Send nmsg err st in
      match err with
      | Some _ => Ok (st, Continue)   (* no op *)
      | None => Ok (st, Continue)
      end
  | PClosed => Ok (st, Return)
  end.

(** One turn of the loop of [listen]; [rcv] is what [t.link.Recv] gives: a
    message, or [None] for an error. *)
Definition listen (rcv : option Message) (st : state) : result (state * flow) :=
  match rcv with
  | None => Ok (st, Return)
  | Some msg =>
      (* the tunnel id *)
      let id := hget (Header msg) "Micro-Tunnel-Id" in
      (* the session id *)
      let session := hget (Header msg) "Micro-Tunnel-Session" in
      (* get the socket *)
      match getSocket id st with
      | None => Ok (st, Continue)
      | Some p =>
          s <- deref p st ;;
          (* is the socket closed? *)
          if sig_ready (s_closed s) then
            Ok (set_sockets (delete id (sockets st)) st, Continue)
          else
            (* is the socket new? *)
            st <- (if sig_ready (s_wait s) then Ok st
                   else
                     (* set remote address of the socket *)
                     let st := update_socket p (set_s_remote (hget (Header msg) "Remote")) st in
                     w <- sig_close (s_wait s) ;;
                     Ok (update_socket p (set_s_wait w) st)) ;;
            (* construct a new transport message *)
            let tmsg := {| Header := Header msg; Body := Body msg |} in
            (* construct the internal message *)
            let imsg := {| m_id := id; m_session := session; m_data := tmsg |} in
            (* append to recv backlog; we don't block if we can't pass it on *)
            Ok (update_socket p (fun s => set_s_recv (try_send (s_recv s) imsg) s) st,
                Continue)
      end
  end.

(** Modelled from the spec: [socket.Close], of the file socket.go which is
    not part of the sources at hand. The spec has the socket's closed signal
    "closed exactly once on Close", so a Close sets the signal and a second
    one changes nothing. *)
Definition socket_Close (s : socket) : socket := set_s_closed SigClosed s.

(** [for _, s := range t.sockets { s.Close() }]. *)
Definition close_sockets (st : state) : state :=
  set_heap (foldr (alter socket_Close) (heap st) (map_to_list (sockets st)).*2) st.

(** [Close] the tunnel; the error returned is always nil. *)
Definition Close (st : state) : result (state * option string) :=
  if negb (connected st) then Ok (st, None)
  else if sig_ready (closed st) then Ok (st, None)
  else
    (* close all the sockets *)
    let st := close_sockets st in
    (* close the connection *)
    c <- sig_close (closed st) ;;
    Ok (set_connected false (set_closed c st), None).

(** [Connect] the tunnel. *)
Definition Connect (st : state) : state * option string :=
  (* already connected *)
  if connected st then (st, None)
  else
    (* set as connected *)
    let st := set_connected true st in
    (* create new close channel *)
    let st := set_closed SigOpen st in
    (* process messages to be sent; process incoming messages *)
    (set_spawned (spawned st ++ [GoProcess; GoListen]) st, None).

(** [Dial] an address. *)
Definition Dial (addr : string) (st : state) : state * (ptr * option string) :=
  let '(c, st) := newSocket addr st in
  (* set remote *)
  let st := update_socket c (set_s_remote addr) st in
  (* set local *)
  let st := update_socket c (set_s_local (link_Local st)) st in
  (st, (c, None)).

(** [Listen], up to its [select]: the socket is created and registered. *)
Definition Listen_socket (addr : string) (st : state) : ptr * state :=
  (* create a new socket by hashing the address *)
  let '(c, st) := newSocket addr st in
  (* set remote. it will be replaced by the first message received *)
  let st := update_socket c (set_s_remote (link_Remote st)) st in
  (* set local *)
  (c, update_socket c (set_s_local addr) st).

(** The two cases of the [select] of [Listen]; there is no default case, so
    with no case able to proceed [Listen] stays blocked. *)
Inductive listen_case := LClosed | LWait.

Definition Listen_ready (c : ptr) (st : state) : list listen_case :=
  match heap st !! c with
  | Some s => select_choices [(sig_ready (s_closed s), LClosed); (sig_ready (s_wait s), LWait)] None
  | None => []
  end.

(** [Listen] from its [select] on, in the case the runtime chose. *)
Definition Listen_return (addr : string) (c : ptr) (k : listen_case) (st : state)
  : state * (option tunListener * option string) :=
  match k with
  | LClosed => (st, (None, Some "error creating socket"%string))
  | LWait =>
      let tl := {| tl_addr := addr; tl_accept := []; tl_closed := SigOpen;
                   tl_conn := c; tl_socket := c |} in
      (set_spawned (spawned st ++ [GoListener tl]) st, (Some tl, None))
  end.

(** What the tunnel and its two loops can do next. *)
Inductive step : state -> state -> Prop :=
  | step_Connect st :
      step st (Connect st).1
  | step_Close st st' e :
      Close st = Ok (st', e) -> step st st'
  | step_Dial addr st :
      step st (Dial addr st).1
  | step_Listen_socket addr st :
      step st (Listen_socket addr st).2
  | step_Listen_return addr c k st :
      k ∈ Listen_ready c st -> step st (Listen_return addr c k st).1
  | step_socket_Close c st :
      step st (update_socket c socket_Close st)
  | step_listen rcv st st' fl :
      listen rcv st = Ok (st', fl) -> step st st'
  | step_process k err st st' fl :
      k ∈ process_ready st -> process k err st = Ok (st', fl) -> step st st'.

(** The states a tunnel made by [newTunnel] can get into. *)
Definition reachable (st : state) : Prop :=
  exists local remote uuids, rtc step (newTunnel local remote uuids) st.

(** A routing key has the shape of a SHA-256 digest in hex: 64 characters,
    each of [0-9a-f]. *)
Definition is_lower_hex (c : ascii) : bool :=
  let n := nat_of_ascii c in
  ((48 <=? n) && (n <=? 57) || (97 <=? n) && (n <=? 102))%nat.

Definition is_digest_key (k : string) : bool :=
  (String.length k =? 64)%nat && forallb is_lower_hex (list_ascii_of_string k).

(** A random source for the examples. *)
Definition sample_uuids (n : nat) : string :=
  match n with
  | O => "9f1c2e0a-5b7d-4c3e-8a21-0d4f6b8e1c55"
  | 1%nat => "3b6a7f42-91ce-4d08-b5a3-7e2c9a6d4f10"
  | 2%nat => "c84d1e97-20fb-4a6c-9e35-5a1b8d7f3e02"
  | _ => "e2a05c6b-7d34-4f19-a8c0-46b9d1f72ea8"
  end.
(** The identifier [newSocket] hashes: the one given or, for the empty one,
    the next UUID of the random source. *)
Definition effective_id (id : string) (st : state) : string :=
  if (String.length id =? 0)%nat then uuid_src st (uuid_next st) else id.

(** A tunnel that is connected and has dialed one peer, and an inbound
    message for that socket. *)
Definition st_dialed : state :=
  (Dial "peer-1:9000" (Connect (newTunnel "local:1" "remote:2" sample_uuids)).1).1.

Definition msg_inbound : Message :=
  {| Header := HMap (<["Remote" := "peer-9:4000"%string]>
                       (<["Micro-Tunnel-Id" := hash_id "peer-1:9000"]> ∅));
     Body := [104; 105] |}.

(** An envelope whose payload was built without a header map,
    [&transport.Message{Body: ...}], waiting in the outbound queue. *)
Definition msg_no_header : message :=
  {| m_id := hash_id "peer-1:9000";
     m_session := sample_uuids O;
     m_data := {| Header := HNil; Body := [104; 105] |} |}.

Definition st_no_header : state := set_send [msg_no_header] st_dialed.

(** The same tunnel when the dialed socket has a closed gate and an inbound
    queue holding 128 messages that nobody has read. *)
Definition queued (n : nat) : message :=
  {| m_id := hash_id "peer-1:9000"; m_session := "peer-session";
     m_data := {| Header := HNil; Body := [Z.of_nat n] |} |}.

Definition st_full_queue : state :=
  update_socket O (fun s => set_s_wait SigClosed (set_s_recv (map queued (seq 0 128)) s))
                st_dialed.

(** A fresh tunnel, the states after one and after two calls of Dial with
    the empty address, and the two sockets these calls return. *)
Definition st_fresh : state := newTunnel "local:1" "remote:2" sample_uuids.

Definition st_dial_empty_1 : state := (Dial "" st_fresh).1.
Definition c_dial_empty_1 : nat := (Dial "" st_fresh).2.1.
Definition st_dial_empty_2 : state := (Dial "" st_dial_empty_1).1.
Definition c_dial_empty_2 : nat := (Dial "" st_dial_empty_1).2.1.

(** Every key of the table is the hex digest of some identifier. *)
Definition keys_hashed (st : state) : Prop :=
  forall k p, sockets st !! k = Some p ->
    is_digest_key k = true /\ exists id, k = hash_id id.

(** No socket on the heap has a gate channel. *)
Definition gates_nil (st : state) : Prop :=
  forall p s, heap st !! p = Some s -> s_wait s = SigNil.

(* ===================================================================== *)
(** ** The two loops over several turns                                   *)
(* ===================================================================== *)

(** The [for] loop of [listen] over what successive calls of [link.Recv]
    give, until the goroutine returns or panics or the list is used up. *)
Fixpoint listen_loop (rcvs : list (option Message)) (st : state) : result (state * flow) :=
  match rcvs with
  | [] => Ok (st, Continue)
  | rcv :: rcvs' =>
      r <- listen rcv st ;;
      match r.2 with
      | Return => Ok r
      | Continue => listen_loop rcvs' r.1
      end
  end.

(** The [for] loop of [process] for as many turns as there are answers of
    the link in [errs], the runtime taking the message at the head of
    [t.send] each time; with nothing queued the loop waits. *)
Fixpoint process_loop (errs : list (option string)) (st : state) : result state :=
  match errs with
  | [] => Ok st
  | err :: errs' =>
      match send st with
      | [] => Ok st
      | msg :: _ =>
          r <- process (PSend msg) err st ;;
          process_loop errs' r.1
      end
  end.

(** The wire form of an envelope: its payload with the two routing headers
    written over whatever the payload had under these names. *)
Definition wire (msg : message) : Message :=
  match Header (m_data msg) with
  | HNil => m_data msg
  | HMap h =>
      {| Header := HMap (<["Micro-Tunnel-Session" := m_session msg]>
                           (<["Micro-Tunnel-Id" := m_id msg]> h));
         Body := Body (m_data msg) |}
  end.

(** The routing key an inbound message carries. *)
Definition msg_key (msg : Message) : string := hget (Header msg) "Micro-Tunnel-Id".

(** Every table entry points to a socket on the heap that carries the key it
    is registered under, and every pointer in use is below [next]. *)
Definition table_consistent (st : state) : Prop :=
  (forall k p, sockets st !! k = Some p ->
     exists s, heap st !! p = Some s /\ s_id s = k) /\
  (forall p s, heap st !! p = Some s -> (p < next st)%nat).

(** Every socket in the table is on the heap and closed. *)
Definition all_closed (st : state) : Prop :=
  forall k p, sockets st !! k = Some p ->
    exists s, heap st !! p = Some s /\ s_closed s = SigClosed.

(** No socket on the heap has a message in its inbound queue. *)
Definition queues_empty (st : state) : Prop :=
  forall p s, heap st !! p = Some s -> s_recv s = [].

(** Two envelopes with header maps, as a socket would queue them. *)
Definition env_1 : message :=
  {| m_id := hash_id "peer-1:9000"; m_session := sample_uuids O;
     m_data := {| Header := HMap (<["Content-Type" := "application/json"%string]> ∅);
                  Body := [1] |} |}.

Definition env_2 : message :=
  {| m_id := hash_id "peer-1:9000"; m_session := sample_uuids O;
     m_data := {| Header := HMap (<["Micro-Tunnel-Id" := "stale"%string]> ∅);
                  Body := [2] |} |}.

(** The dialed tunnel with the gate of its socket closed, before and after
    the receive loop has taken one inbound message for it. *)
Definition st_gate_closed : state := update_socket O (set_s_wait SigClosed) st_dialed.

Definition st_delivered : state :=
  match listen (Some msg_inbound) st_gate_closed with
  | Ok r => r.1
  | Panic _ => st_gate_closed
  end.

(* ===================================================================== *)
(** * Theorems                                                            *)
(* ===================================================================== *)

Example hash_abc :
  hash_id "abc" = "ba7816bf8f01cfea414140de5dae2223b00361a396177a9cb410ff61f20015ad"%string.
Proof. vm_compute. reflexivity. Qed.

Example hash_empty :
  hash_id "" = "e3b0c44298fc1c149afbf4c8996fb92427ae41e4649b934ca495991b7852b855"%string.
Proof. vm_compute. reflexivity. Qed.

Example hash_peer :
  hash_id "peer-1:9000" = "18cc9c0d103b77b93a63f4d9ebdf07557f3f962c343cfed21eb8385fa11d4bd6"%string.
Proof. vm_compute. reflexivity. Qed.

Example hash_two_chunks :
  hash_id "aaaaaaaaaaaaaaaaaaaaaaaaaaaaaaaaaaaaaaaaaaaaaaaaaaaaaaaa"
  = "b35439a4ac6f0948b6d6f9e3c6af0f5f590ce20f1bde7090ef7970686ec6738a"%string.
Proof. vm_compute. reflexivity. Qed.

(* ===================================================================== *)
(** ** The shape of a routing key                                         *)
(* ===================================================================== *)

Lemma digest_bytes_length d : length (Sha256.digest_bytes d) = 32%nat.
Proof. destruct d. reflexivity. Qed.

Lemma digest_bytes_range d :
  Forall (fun b => 0 <= b < 256) (Sha256.digest_bytes d).
Proof.
  unfold Sha256.digest_bytes, Sha256.be_uint32.
  repeat match goal with
         | |- Forall _ (_ ++ _) => apply Forall_app; split
         | |- Forall _ (_ :: _) => apply List.Forall_cons
         | |- Forall _ [] => apply List.Forall_nil
         end;
    apply Z.mod_pos_bound; lia.
Qed.

Lemma hexdigit_lower n : 0 <= n < 16 -> is_lower_hex (hexdigit n) = true.
Proof.
  intros Hn. unfold hexdigit.
  assert (Hm : (Z.to_nat n < 16)%nat) by lia.
  revert Hm. generalize (Z.to_nat n). intros m Hm.
  do 16 (destruct m as [|m]; [reflexivity|]). lia.
Qed.

Lemma high_nibble b : 0 <= b < 256 -> 0 <= Z.shiftr b 4 < 16.
Proof.
  intros Hb. rewrite Z.shiftr_div_pow2 by lia.
  change (2 ^ 4) with 16. split.
  - apply Z.div_pos; lia.
  - apply Z.div_lt_upper_bound; lia.
Qed.

Lemma low_nibble b : 0 <= b < 256 -> 0 <= Z.land b 15 < 16.
Proof.
  intros Hb. change 15 with (Z.ones 4). rewrite Z.land_ones by lia.
  apply Z.mod_pos_bound. reflexivity.
Qed.

Lemma sprintf_x_chars bs :
  list_ascii_of_string (sprintf_x bs)
  = flat_map (fun b => [hexdigit (Z.shiftr b 4); hexdigit (Z.land b 15)]) bs.
Proof. unfold sprintf_x. apply list_ascii_of_string_of_list_ascii. Qed.

Lemma string_length_chars s : String.length s = length (list_ascii_of_string s).
Proof. induction s as [|c s IH]; simpl; congruence. Qed.

Lemma sprintf_x_length bs : String.length (sprintf_x bs) = (2 * length bs)%nat.
Proof.
  rewrite string_length_chars, sprintf_x_chars.
  induction bs as [|b bs IH]; simpl in *; lia.
Qed.

Lemma sprintf_x_lower bs :
  Forall (fun b => 0 <= b < 256) bs ->
  forallb is_lower_hex (list_ascii_of_string (sprintf_x bs)) = true.
Proof.
  rewrite sprintf_x_chars.
  induction 1 as [|b bs Hb _ IH]; simpl; [reflexivity|].
  rewrite (hexdigit_lower _ (high_nibble b Hb)).
  rewrite (hexdigit_lower _ (low_nibble b Hb)). exact IH.
Qed.

(** Whatever is hashed, the key is 64 characters of lower-case hex. *)
Lemma hash_id_is_digest_key id : is_digest_key (hash_id id) = true.
Proof.
  unfold is_digest_key, hash_id, Sha256.Sum.
  rewrite sprintf_x_length, digest_bytes_length.
  rewrite sprintf_x_lower by apply digest_bytes_range.
  reflexivity.
Qed.

Arguments hash_id : simpl never.

(* ===================================================================== *)
(** ** Connect and Close                                                  *)
(* ===================================================================== *)

Lemma sig_ready_closed c : sig_ready c = true <-> c = SigClosed.
Proof. destruct c; simpl; split; congruence. Qed.

Lemma sig_ready_not_closed c : sig_ready c = false <-> c <> SigClosed.
Proof. destruct c; simpl; split; congruence. Qed.

Lemma socket_Close_idemp s : socket_Close (socket_Close s) = socket_Close s.
Proof. reflexivity. Qed.

(** A loop of in-place updates through pointers: a socket is changed when its
    pointer is among those visited, however often it is. *)
Lemma foldr_alter_lookup (f : socket -> socket) (ps : list nat)
      (h : gmap nat socket) (p : nat) :
  (forall s, f (f s) = f s) ->
  foldr (alter f) h ps !! p = if decide (p ∈ ps) then f <$> h !! p else h !! p.
Proof.
  intros Hf. induction ps as [|q ps IH]; cbn [foldr].
  - destruct (decide (p ∈ [])) as [Hin|_]; [|reflexivity].
    exfalso. revert Hin. apply not_elem_of_nil.
  - rewrite lookup_alter.
    destruct (decide (q = p)) as [->|Hqp]; rewrite IH.
    + destruct (decide (p ∈ p :: ps)) as [_|Hn];
        [|exfalso; apply Hn, elem_of_cons; left; reflexivity].
      destruct (decide (p ∈ ps)); [|reflexivity].
      destruct (h !! p); simpl; [rewrite Hf|]; reflexivity.
    + destruct (decide (p ∈ ps)) as [Hin|Hin];
        destruct (decide (p ∈ q :: ps)) as [Hin'|Hin']; try reflexivity.
      * exfalso. apply Hin', elem_of_cons. right. exact Hin.
      * exfalso. apply elem_of_cons in Hin' as [?|?]; congruence.
Qed.

Lemma registered_pointer (m : gmap string nat) k p :
  m !! k = Some p -> p ∈ (map_to_list m).*2.
Proof.
  intros Hk. apply list_elem_of_fmap. exists (k, p). split; [reflexivity|].
  apply elem_of_map_to_list. exact Hk.
Qed.

Lemma close_sockets_registered st k p s :
  sockets st !! k = Some p -> heap st !! p = Some s ->
  heap (close_sockets st) !! p = Some (socket_Close s).
Proof.
  intros Hk Hp. unfold close_sockets. simpl.
  rewrite foldr_alter_lookup by apply socket_Close_idemp.
  rewrite decide_True by (eapply registered_pointer; exact Hk).
  rewrite Hp. reflexivity.
Qed.

(** What a genuine [Close] does to an open tunnel. *)
Lemma Close_open st :
  connected st = true -> closed st = SigOpen ->
  Close st = Ok (set_connected false (set_closed SigClosed (close_sockets st)), None).
Proof.
  intros Hc Ho. unfold Close. rewrite Hc. simpl. rewrite Ho. reflexivity.
Qed.

Lemma listen_closed_socket st msg p s :
  getSocket (hget (Header msg) "Micro-Tunnel-Id") st = Some p ->
  heap st !! p = Some s -> s_closed s = SigClosed ->
  listen (Some msg) st
  = Ok (set_sockets (delete (hget (Header msg) "Micro-Tunnel-Id") (sockets st)) st, Continue).
Proof.
  intros Hk Hp Hs. unfold listen, deref. rewrite Hk, Hp. simpl.
  rewrite Hs. reflexivity.
Qed.

(** C1. When the tunnel is connected and its shutdown signal is still open,
    [Close] calls Close on every socket in the table, which sets the socket's
    closed signal, and closes the shutdown signal, and the table keeps all
    its entries. An inbound message whose routing key is that of such a
    socket, arriving right after or in any later state that still has the
    closed socket under its key, makes the receive loop delete the entry for
    the key and go round again: the message is dropped, the heap of sockets
    and so every queue is as before. *)
Theorem Close_closes_sockets_lazily st :
  connected st = true -> closed st = SigOpen ->
  exists st',
    Close st = Ok (st', None) /\
    sockets st' = sockets st /\
    closed st' = SigClosed /\
    forall k p s,
      sockets st !! k = Some p -> heap st !! p = Some s ->
      heap st' !! p = Some (socket_Close s) /\
      s_closed (socket_Close s) = SigClosed /\
      forall msg,
        hget (Header msg) "Micro-Tunnel-Id" = k ->
        listen (Some msg) st' = Ok (set_sockets (delete k (sockets st')) st', Continue) /\
        heap (set_sockets (delete k (sockets st')) st') = heap st' /\
        forall st2,
          sockets st2 !! k = Some p -> heap st2 !! p = Some (socket_Close s) ->
          listen (Some msg) st2 = Ok (set_sockets (delete k (sockets st2)) st2, Continue) /\
          heap (set_sockets (delete k (sockets st2)) st2) = heap st2.
Proof.
  intros Hc Ho. eexists. split; [apply Close_open; assumption|].
  split; [reflexivity|]. split; [reflexivity|].
  intros k p s Hk Hp.
  pose proof (close_sockets_registered st k p s Hk Hp) as Hp'.
  split; [exact Hp'|]. split; [reflexivity|].
  intros msg Hid.
  assert (Hlater : forall st2,
            sockets st2 !! k = Some p -> heap st2 !! p = Some (socket_Close s) ->
            listen (Some msg) st2 = Ok (set_sockets (delete k (sockets st2)) st2, Continue)).
  { intros st2 Hk2 Hp2. rewrite <- Hid.
    apply (listen_closed_socket _ msg p (socket_Close s)).
    - unfold getSocket. rewrite Hid. exact Hk2.
    - exact Hp2.
    - reflexivity. }
  split; [apply Hlater; [exact Hk|exact Hp']|].
  split; [reflexivity|].
  intros st2 Hk2 Hp2. split; [apply Hlater; assumption|reflexivity].
Qed.

(** C3. [Connect] on a connected tunnel returns nil and leaves the whole
    state as it is: the same shutdown channel, no goroutine started. [Close]
    on a tunnel that is not connected, or whose shutdown signal is closed
    already, returns nil and leaves the whole state as it is: no socket is
    closed and the table is the same. So Connect twice is Connect once, and
    Close twice is Close once. *)
Theorem Connect_Close_idempotent st :
  (connected st = true -> Connect st = (st, None)) /\
  (connected st = false \/ closed st = SigClosed -> Close st = Ok (st, None)) /\
  Connect (Connect st).1 = Connect st /\
  (r <- Close st ;; Close r.1) = Close st.
Proof.
  repeat split.
  - intros Hc. unfold Connect. rewrite Hc. reflexivity.
  - intros [Hc|Hs]; unfold Close.
    + rewrite Hc. reflexivity.
    + rewrite Hs. destruct (connected st); reflexivity.
  - unfold Connect. destruct (connected st) eqn:Hc; simpl.
    + rewrite Hc. reflexivity.
    + reflexivity.
  - unfold Close. destruct (connected st) eqn:Hc; simpl.
    + destruct (closed st) eqn:Hs; simpl; rewrite ?Hc, ?Hs; simpl;
        rewrite ?Hs; reflexivity.
    + rewrite Hc. reflexivity.
Qed.

(* ===================================================================== *)
(** ** The send loop                                                      *)
(* ===================================================================== *)

Lemma process_ready_cases st :
  process_ready st =
    match send st with
    | msg :: _ => PSend msg :: (if sig_ready (closed st) then [PClosed] else [])
    | [] => if sig_ready (closed st) then [PClosed] else []
    end.
Proof.
  unfold process_ready. destruct (send st); destruct (closed st); reflexivity.
Qed.

Lemma process_ready_closed st : PClosed ∈ process_ready st <-> closed st = SigClosed.
Proof.
  rewrite process_ready_cases, <- sig_ready_closed.
  destruct (send st); destruct (sig_ready (closed st));
    rewrite ?elem_of_cons, ?elem_of_nil; intuition congruence.
Qed.

Lemma process_Return k err st st' : process k err st = Ok (st', Return) -> k = PClosed.
Proof.
  destruct k as [msg|]; [|reflexivity]. unfold process.
  destruct (Header (m_data msg)); simpl; [discriminate|].
  destruct err; discriminate.
Qed.

(** C4, counterexample. An envelope whose payload has no
    header map is taken from the queue, and stamping the first routing header
    on it panics, so no wire message is handed to the link. *)
Lemma process_no_header_counterexample :
  PSend msg_no_header ∈ process_ready st_no_header /\
  process (PSend msg_no_header) None st_no_header = Panic "assignment to entry in nil map" /\
  ~ (exists st' nmsg,
       process (PSend msg_no_header) None st_no_header = Ok (st', Continue) /\
       link_sent st' = link_sent st_no_header ++ [nmsg]).
Proof.
  split; [|split].
  - rewrite process_ready_cases. simpl. apply elem_of_cons. left. reflexivity.
  - reflexivity.
  - intros (st' & nmsg & H & _). discriminate H.
Qed.

(** C4, amended. An envelope at the head of the outbound queue whose payload
    has a header map is taken by the send loop, and the wire message handed
    to the link's Send has the payload's body and the payload's headers with
    "Micro-Tunnel-Id" set to the envelope's socket key and
    "Micro-Tunnel-Session" to its session identifier. Whatever Send answers,
    error or not, the message is gone from the queue, it was handed over
    once, and the loop goes round again. The loop returns in the case of the
    shutdown signal and in no other, and that case can be chosen exactly when
    the signal is closed. *)
Theorem process_stamps_and_forwards st msg rest h err :
  send st = msg :: rest ->
  Header (m_data msg) = HMap h ->
  PSend msg ∈ process_ready st /\
  process (PSend msg) err st
  = Ok (set_link_sent
          (link_sent st ++
             [ {| Header := HMap (<["Micro-Tunnel-Session" := m_session msg]>
                                     (<["Micro-Tunnel-Id" := m_id msg]> h));
                  Body := Body (m_data msg) |} ])
          (set_send rest st),
        Continue) /\
  (PClosed ∈ process_ready st <-> closed st = SigClosed) /\
  process PClosed err st = Ok (st, Return) /\
  (forall k st', process k err st = Ok (st', Return) -> k = PClosed).
Proof.
  intros Hq Hh. split; [|split; [|split; [|split]]].
  - rewrite process_ready_cases, Hq. apply elem_of_cons. left. reflexivity.
  - unfold process. rewrite Hh, Hq. simpl. destruct err; reflexivity.
  - apply process_ready_closed.
  - reflexivity.
  - intros k st'. apply process_Return.
Qed.

Lemma process_stamps_and_forwards_witness :
  process (PSend (mkmessage "k" "s" msg_inbound)) (Some "link down"%string)
          (set_send [mkmessage "k" "s" msg_inbound] st_dialed)
  = Ok (set_link_sent
          [ {| Header := HMap (<["Micro-Tunnel-Session" := "s"%string]>
                                 (<["Micro-Tunnel-Id" := "k"%string]>
                                    (<["Remote" := "peer-9:4000"%string]>
                                       (<["Micro-Tunnel-Id" := hash_id "peer-1:9000"]> ∅))));
               Body := [104; 105] |} ]
          (set_send [] (set_send [mkmessage "k" "s" msg_inbound] st_dialed)),
        Continue).
Proof.
  exact (proj1 (proj2 (process_stamps_and_forwards
                         (set_send [mkmessage "k" "s" msg_inbound] st_dialed)
                         (mkmessage "k" "s" msg_inbound) [] _ (Some "link down"%string)
                         eq_refl eq_refl))).
Defined.

(* ===================================================================== *)
(** ** The receive loop                                                   *)
(* ===================================================================== *)

(** C7. An inbound message whose "Micro-Tunnel-Id" header is no key of the
    socket table is dropped: the loop goes round again without an error and
    the state is the one before, so the table and every socket (its remote
    address, gate, closed signal and inbound queue) are what they were. *)
Theorem listen_unknown_key_dropped st msg :
  sockets st !! hget (Header msg) "Micro-Tunnel-Id" = None ->
  listen (Some msg) st = Ok (st, Continue).
Proof. intros Hk. unfold listen, getSocket. rewrite Hk. reflexivity. Qed.

Lemma listen_unknown_key_dropped_witness :
  listen (Some (mkMessage (HMap (<["Micro-Tunnel-Id" := "no such key"%string]> ∅)) [1]))
         st_dialed
  = Ok (st_dialed, Continue).
Proof. apply listen_unknown_key_dropped. vm_compute. reflexivity. Defined.

Lemma try_send_full c m : length c = chan_cap -> try_send c m = c.
Proof.
  intros Hc. unfold try_send. rewrite Hc.
  rewrite Nat.ltb_irrefl. reflexivity.
Qed.

Lemma update_socket_lookup p f st s :
  heap st !! p = Some s -> heap (update_socket p f st) !! p = Some (f s).
Proof. intros Hp. simpl. rewrite lookup_alter_eq, Hp. reflexivity. Qed.

Lemma update_socket_other p q f st :
  q <> p -> heap (update_socket p f st) !! q = heap st !! q.
Proof. intros Hq. simpl. apply lookup_alter_ne. congruence. Qed.

(** The turn of the receive loop for a registered socket that is not closed
    and whose gate channel exists: the message reaches the enqueue. *)
Lemma listen_deliver st msg p s :
  sockets st !! hget (Header msg) "Micro-Tunnel-Id" = Some p ->
  heap st !! p = Some s ->
  s_closed s <> SigClosed -> s_wait s <> SigNil ->
  let imsg := {| m_id := hget (Header msg) "Micro-Tunnel-Id";
                 m_session := hget (Header msg) "Micro-Tunnel-Session";
                 m_data := {| Header := Header msg; Body := Body msg |} |} in
  let s1 := match s_wait s with
            | SigClosed => s
            | _ => set_s_wait SigClosed (set_s_remote (hget (Header msg) "Remote") s)
            end in
  listen (Some msg) st
  = Ok (set_heap (<[p := set_s_recv (try_send (s_recv s) imsg) s1]> (heap st)) st, Continue).
Proof.
  intros Hk Hp Hc Hw. unfold listen, getSocket, deref. rewrite Hk, Hp. simpl.
  apply sig_ready_not_closed in Hc. rewrite Hc.
  destruct (s_wait s) eqn:Ew; [congruence| |]; simpl;
    unfold update_socket, set_heap; simpl; do 3 f_equal;
    apply map_eq; intros q; (destruct (decide (q = p)) as [->|Hq];
      [ rewrite lookup_insert_eq, !lookup_alter_eq, Hp; reflexivity
      | rewrite lookup_insert_ne, !lookup_alter_ne by congruence; reflexivity ]).
Qed.

(** C8. When the receive loop comes to enqueue an envelope for a socket whose
    inbound queue already holds 128 messages, the turn ends without an error
    and the loop goes round again; the socket's queue is the one before, the
    same messages in the same order, without the new one; and no other socket
    is touched. *)
Theorem listen_full_queue_drops st msg p s :
  sockets st !! hget (Header msg) "Micro-Tunnel-Id" = Some p ->
  heap st !! p = Some s ->
  s_closed s <> SigClosed -> s_wait s <> SigNil ->
  length (s_recv s) = 128%nat ->
  exists st' s',
    listen (Some msg) st = Ok (st', Continue) /\
    heap st' !! p = Some s' /\
    s_recv s' = s_recv s /\
    (forall q, q <> p -> heap st' !! q = heap st !! q) /\
    sockets st' = sockets st.
Proof.
  intros Hk Hp Hc Hw Hfull.
  pose proof (listen_deliver st msg p s Hk Hp Hc Hw) as Hl. simpl in Hl.
  rewrite try_send_full in Hl by exact Hfull.
  eexists _, _. split; [exact Hl|]. simpl.
  split; [apply lookup_insert_eq|]. split; [reflexivity|].
  split; [|reflexivity].
  intros q Hq. apply lookup_insert_ne. congruence.
Qed.

Lemma listen_full_queue_drops_witness :
  exists st' s',
    listen (Some msg_inbound) st_full_queue = Ok (st', Continue) /\
    heap st' !! O = Some s' /\
    s_recv s' = map queued (seq 0 128) /\
    (forall q, q <> O -> heap st' !! q = heap st_full_queue !! q) /\
    sockets st' = sockets st_full_queue.
Proof.
  refine (listen_full_queue_drops st_full_queue msg_inbound O
            (mksocket (hash_id "peer-1:9000") (sample_uuids O) SigOpen
                      "peer-1:9000" "local:1" (map queued (seq 0 128)) SigClosed)
            _ _ _ _ _).
  - vm_compute. reflexivity.
  - vm_compute. reflexivity.
  - discriminate.
  - discriminate.
  - reflexivity.
Defined.

(* ===================================================================== *)
(** ** newSocket, Dial and Listen                                         *)
(* ===================================================================== *)

Lemma effective_id_nonempty id st : id <> ""%string -> effective_id id st = id.
Proof. intros Hid. unfold effective_id. destruct id; [congruence|reflexivity]. Qed.

(** [newSocket] in one piece: the socket made, where it is put and under
    which key. *)
Lemma newSocket_eq id st :
  exists session un,
    newSocket id st =
      (next st,
       mkstate (link_Local st) (link_Remote st) (link_sent st) (connected st)
               (send st) (closed st)
               (<[hash_id (effective_id id st) := next st]> (sockets st))
               (<[next st := mksocket (hash_id (effective_id id st)) session
                                      SigOpen "" "" [] SigNil]> (heap st))
               (S (next st)) (uuid_src st) un (spawned st)).
Proof.
  unfold newSocket, effective_id.
  destruct (String.length id =? 0)%nat; simpl; eexists _, _; reflexivity.
Qed.

Lemma Dial_eq addr st :
  exists session un,
    Dial addr st =
      (mkstate (link_Local st) (link_Remote st) (link_sent st) (connected st)
               (send st) (closed st)
               (<[hash_id (effective_id addr st) := next st]> (sockets st))
               (<[next st := mksocket (hash_id (effective_id addr st)) session
                                      SigOpen addr (link_Local st) [] SigNil]> (heap st))
               (S (next st)) (uuid_src st) un (spawned st),
       (next st, None)).
Proof.
  destruct (newSocket_eq addr st) as (session & un & E).
  exists session, un. unfold Dial. rewrite E.
  unfold update_socket, set_heap. simpl.
  rewrite !alter_insert_eq. reflexivity.
Qed.

Lemma Listen_socket_eq addr st :
  exists session un,
    Listen_socket addr st =
      (next st,
       mkstate (link_Local st) (link_Remote st) (link_sent st) (connected st)
               (send st) (closed st)
               (<[hash_id (effective_id addr st) := next st]> (sockets st))
               (<[next st := mksocket (hash_id (effective_id addr st)) session
                                      SigOpen (link_Remote st) addr [] SigNil]> (heap st))
               (S (next st)) (uuid_src st) un (spawned st)).
Proof.
  destruct (newSocket_eq addr st) as (session & un & E).
  exists session, un. unfold Listen_socket. rewrite E.
  unfold update_socket, set_heap. simpl.
  rewrite !alter_insert_eq. reflexivity.
Qed.

(** C5. For a non-empty address [a], [Dial a] returns a socket and a nil
    error; the socket's key is the lower-case hex of the SHA-256 digest of
    [a], its remote address is [a], its local address is the link's Local(),
    and the table has it under that key. [Dial] is a function of the state it
    starts in: it has no [select], waits for no signal and for no message. *)
Theorem Dial_registers_socket st a :
  a <> ""%string ->
  exists st' c s,
    Dial a st = (st', (c, None)) /\
    sockets st' !! sprintf_x (Sha256.Sum (bytes_of a)) = Some c /\
    heap st' !! c = Some s /\
    s_id s = sprintf_x (Sha256.Sum (bytes_of a)) /\
    s_remote s = a /\
    s_local s = link_Local st.
Proof.
  intros Ha. destruct (Dial_eq a st) as (session & un & E).
  rewrite (effective_id_nonempty a st Ha) in E.
  eexists _, _, _. split; [exact E|]. simpl.
  split; [apply lookup_insert_eq|]. split; [apply lookup_insert_eq|].
  repeat split.
Qed.

Lemma Dial_registers_socket_witness :
  exists st' c s,
    Dial "peer-1:9000" (newTunnel "local:1" "remote:2" sample_uuids) = (st', (c, None)) /\
    sockets st' !! sprintf_x (Sha256.Sum (bytes_of "peer-1:9000")) = Some c /\
    heap st' !! c = Some s /\
    s_id s = sprintf_x (Sha256.Sum (bytes_of "peer-1:9000")) /\
    s_remote s = "peer-1:9000"%string /\
    s_local s = "local:1"%string.
Proof.
  apply (Dial_registers_socket (newTunnel "local:1" "remote:2" sample_uuids) "peer-1:9000").
  discriminate.
Defined.

Lemma Listen_ready_cases c st s :
  heap st !! c = Some s ->
  Listen_ready c st =
    (if sig_ready (s_closed s) then [LClosed] else []) ++
    (if sig_ready (s_wait s) then [LWait] else []).
Proof.
  intros Hc. unfold Listen_ready. rewrite Hc.
  destruct (s_closed s); destruct (s_wait s); reflexivity.
Qed.

(** C6, counterexample. [Listen] with the empty address
    registers its socket under the hash of a fresh UUID; the table has no
    entry under the hash of the address. *)
Lemma Listen_empty_address_counterexample :
  sockets (Listen_socket "" st_fresh).2 !! hash_id "" = None /\
  sockets (Listen_socket "" st_fresh).2 !! hash_id (sample_uuids O)
  = Some (Listen_socket "" st_fresh).1.
Proof. split; vm_compute; reflexivity. Qed.

(** C6, amended. For a non-empty address, [Listen] registers a socket under
    the hash of the address, with the address as its local one and the link's
    Remote() as its remote one. Then comes the [select]: it blocks as long as
    neither the socket's closed signal nor its gate is closed; the case of
    the closed signal can be chosen exactly when that signal is closed, and
    returns no Listener and the error "error creating socket"; the case of
    the gate can be chosen exactly when the gate is closed, and returns a
    Listener on that socket and a nil error; a Listener is returned in this
    case only. *)
Theorem Listen_registers_then_waits st addr :
  addr <> ""%string ->
  exists c st1 s,
    Listen_socket addr st = (c, st1) /\
    sockets st1 !! hash_id addr = Some c /\
    heap st1 !! c = Some s /\
    s_id s = hash_id addr /\ s_local s = addr /\ s_remote s = link_Remote st /\
    forall st2 s2, heap st2 !! c = Some s2 ->
      (Listen_ready c st2 = [] <-> s_closed s2 <> SigClosed /\ s_wait s2 <> SigClosed) /\
      (LClosed ∈ Listen_ready c st2 <-> s_closed s2 = SigClosed) /\
      (LWait ∈ Listen_ready c st2 <-> s_wait s2 = SigClosed) /\
      Listen_return addr c LClosed st2 = (st2, (None, Some "error creating socket"%string)) /\
      (exists tl, (Listen_return addr c LWait st2).2 = (Some tl, None) /\
                  tl_socket tl = c /\ tl_conn tl = c /\ tl_addr tl = addr) /\
      (forall k, (Listen_return addr c k st2).2.1 <> None -> k = LWait).
Proof.
  intros Ha. destruct (Listen_socket_eq addr st) as (session & un & E).
  rewrite (effective_id_nonempty addr st Ha) in E.
  eexists _, _, _. split; [exact E|]. simpl.
  split; [apply lookup_insert_eq|]. split; [apply lookup_insert_eq|].
  split; [reflexivity|]. split; [reflexivity|]. split; [reflexivity|].
  intros st2 s2 Hs2. rewrite (Listen_ready_cases _ _ _ Hs2).
  rewrite <- !sig_ready_not_closed, <- !sig_ready_closed.
  split; [|split; [|split; [|split; [|split]]]].
  - destruct (sig_ready (s_closed s2)), (sig_ready (s_wait s2)); simpl;
      intuition congruence.
  - destruct (sig_ready (s_closed s2)), (sig_ready (s_wait s2)); simpl;
      rewrite ?elem_of_cons, ?elem_of_nil; intuition congruence.
  - destruct (sig_ready (s_closed s2)), (sig_ready (s_wait s2)); simpl;
      rewrite ?elem_of_cons, ?elem_of_nil; intuition congruence.
  - reflexivity.
  - eexists. simpl. repeat split.
  - intros [|] Hk; [|reflexivity]. simpl in Hk. congruence.
Qed.

Lemma Listen_registers_then_waits_witness :
  exists c st1 s,
    Listen_socket "svc-a:7000" st_fresh = (c, st1) /\
    sockets st1 !! hash_id "svc-a:7000" = Some c /\
    heap st1 !! c = Some s /\
    s_id s = hash_id "svc-a:7000" /\ s_local s = "svc-a:7000"%string /\
    s_remote s = link_Remote st_fresh /\
    forall st2 s2, heap st2 !! c = Some s2 ->
      (Listen_ready c st2 = [] <-> s_closed s2 <> SigClosed /\ s_wait s2 <> SigClosed) /\
      (LClosed ∈ Listen_ready c st2 <-> s_closed s2 = SigClosed) /\
      (LWait ∈ Listen_ready c st2 <-> s_wait s2 = SigClosed) /\
      Listen_return "svc-a:7000" c LClosed st2
      = (st2, (None, Some "error creating socket"%string)) /\
      (exists tl, (Listen_return "svc-a:7000" c LWait st2).2 = (Some tl, None) /\
                  tl_socket tl = c /\ tl_conn tl = c /\ tl_addr tl = "svc-a:7000"%string) /\
      (forall k, (Listen_return "svc-a:7000" c k st2).2.1 <> None -> k = LWait).
Proof.
  apply (Listen_registers_then_waits st_fresh "svc-a:7000"). discriminate.
Defined.

(** C9, counterexample. Two calls of [Dial] with the empty
    address hash two different UUIDs; the two sockets have different keys and
    the second call leaves the first socket in the table. *)
Lemma Dial_empty_twice_counterexample :
  s_id <$> heap st_dial_empty_2 !! c_dial_empty_1
  <> s_id <$> heap st_dial_empty_2 !! c_dial_empty_2 /\
  sockets st_dial_empty_2 !! hash_id (sample_uuids O) = Some c_dial_empty_1 /\
  sockets st_dial_empty_2 !! hash_id (sample_uuids 2) = Some c_dial_empty_2.
Proof.
  split; [|split]; vm_compute; [discriminate| reflexivity | reflexivity].
Qed.

(** C9, amended. For a non-empty address [a], two calls of [Dial a] in a row
    give two sockets with the same key, the hash of [a]. The second call
    overwrites the table entry of the first: the table is the one before both
    calls with the key set to the second socket, and a lookup of the key (as
    the receive loop does for inbound messages) finds the second socket. The
    first socket is a different one, it is still on the heap as the first
    call left it, and its closed signal is open. *)
Theorem Dial_twice_replaces st a :
  a <> ""%string ->
  exists st1 c1 st2 c2 s1 s2,
    Dial a st = (st1, (c1, None)) /\
    Dial a st1 = (st2, (c2, None)) /\
    heap st2 !! c1 = Some s1 /\ heap st2 !! c2 = Some s2 /\
    s_id s1 = hash_id a /\ s_id s2 = hash_id a /\
    sockets st1 !! hash_id a = Some c1 /\
    sockets st2 = <[hash_id a := c2]> (sockets st) /\
    getSocket (s_id s1) st2 = Some c2 /\
    c1 <> c2 /\
    heap st1 !! c1 = Some s1 /\
    s_closed s1 = SigOpen.
Proof.
  intros Ha.
  destruct (Dial_eq a st) as (session1 & un1 & E1).
  rewrite (effective_id_nonempty a st Ha) in E1.
  eexists _, _. rewrite E1.
  match goal with |- context [Dial a ?st1] =>
    destruct (Dial_eq a st1) as (session2 & un2 & E2);
    rewrite (effective_id_nonempty a st1 Ha) in E2
  end.
  simpl in E2.
  eexists _, _, _, _. split; [reflexivity|]. split; [exact E2|].
  unfold getSocket. simpl.
  split; [rewrite lookup_insert_ne by lia; apply lookup_insert_eq|].
  split; [apply lookup_insert_eq|].
  split; [reflexivity|]. split; [reflexivity|].
  split; [apply lookup_insert_eq|].
  split; [apply insert_insert_eq|].
  split; [apply lookup_insert_eq|].
  split; [lia|].
  split; [apply lookup_insert_eq|reflexivity].
Qed.

Lemma Dial_twice_replaces_witness :
  exists st1 c1 st2 c2 s1 s2,
    Dial "peer-1:9000" st_fresh = (st1, (c1, None)) /\
    Dial "peer-1:9000" st1 = (st2, (c2, None)) /\
    heap st2 !! c1 = Some s1 /\ heap st2 !! c2 = Some s2 /\
    s_id s1 = hash_id "peer-1:9000" /\ s_id s2 = hash_id "peer-1:9000" /\
    sockets st1 !! hash_id "peer-1:9000" = Some c1 /\
    sockets st2 = <[hash_id "peer-1:9000" := c2]> (sockets st_fresh) /\
    getSocket (s_id s1) st2 = Some c2 /\
    c1 <> c2 /\
    heap st1 !! c1 = Some s1 /\
    s_closed s1 = SigOpen.
Proof. apply (Dial_twice_replaces st_fresh "peer-1:9000"). discriminate. Defined.

(* ===================================================================== *)
(** ** What every step keeps                                              *)
(* ===================================================================== *)

Lemma Close_Ok_inv st st' e :
  Close st = Ok (st', e) ->
  sockets st' = sockets st /\
  forall p s', heap st' !! p = Some s' ->
    exists s, heap st !! p = Some s /\ s_wait s' = s_wait s.
Proof.
  unfold Close. destruct (connected st); simpl.
  - destruct (closed st) eqn:Hs; simpl; rewrite ?Hs; simpl; intros [= <- _].
    + split; [reflexivity|]. simpl. intros p s'.
      rewrite foldr_alter_lookup by apply socket_Close_idemp.
      destruct (decide (p ∈ (map_to_list (sockets st)).*2)).
      * destruct (heap st !! p) as [s|]; simpl; [|discriminate].
        intros [= <-]. exists s. split; reflexivity.
      * intros Hp. exists s'. split; [exact Hp|reflexivity].
    + split; [reflexivity|]. intros p s' Hp. exists s'. split; [exact Hp|reflexivity].
  - intros [= <- _]. split; [reflexivity|].
    intros p s' Hp. exists s'. split; [exact Hp|reflexivity].
Qed.

Lemma process_Ok_inv k err st st' fl :
  process k err st = Ok (st', fl) -> sockets st' = sockets st /\ heap st' = heap st.
Proof.
  destruct k as [msg|]; unfold process.
  - destruct (Header (m_data msg)); simpl; [discriminate|].
    destruct err; intros [= <- _]; split; reflexivity.
  - intros [= <- _]. split; reflexivity.
Qed.

Lemma listen_Ok_inv rcv st st' fl :
  listen rcv st = Ok (st', fl) ->
  (forall k p, sockets st' !! k = Some p -> sockets st !! k = Some p) /\
  (forall p s', heap st' !! p = Some s' ->
     exists s, heap st !! p = Some s /\ (s_wait s' = s_wait s \/ s_wait s = SigOpen)).
Proof.
  assert (Hsame : forall p s', heap st !! p = Some s' ->
            exists s, heap st !! p = Some s /\ (s_wait s' = s_wait s \/ s_wait s = SigOpen)).
  { intros p s' Hp. exists s'. split; [exact Hp|left; reflexivity]. }
  unfold listen, getSocket, deref. destruct rcv as [msg|].
  2:{ intros [= <- _]. split; [tauto|exact Hsame]. }
  destruct (sockets st !! hget (Header msg) "Micro-Tunnel-Id") as [p|].
  2:{ intros [= <- _]. split; [tauto|exact Hsame]. }
  destruct (heap st !! p) as [s|] eqn:Hp; simpl; [|discriminate].
  destruct (sig_ready (s_closed s)).
  { intros [= <- _]. simpl. split; [|exact Hsame].
    intros k q [_ Hk]%lookup_delete_Some. exact Hk. }
  destruct (s_wait s) eqn:Hw; simpl; [discriminate| |];
    intros [= <- _]; simpl; (split; [tauto|]); intros q s';
    (destruct (decide (q = p)) as [->|Hpq];
       [|rewrite !lookup_alter_ne by congruence; apply Hsame]);
    rewrite !lookup_alter_eq, Hp; simpl; intros [= <-]; exists s;
    (split; [reflexivity|]); simpl; rewrite Hw; tauto.
Qed.

Lemma step_keys_hashed st st' : step st st' -> keys_hashed st -> keys_hashed st'.
Proof.
  intros Hstep Hinv.
  assert (Hnew : forall id (m : gmap string nat) c,
            (forall k p, m !! k = Some p ->
               is_digest_key k = true /\ exists id, k = hash_id id) ->
            forall k p, <[hash_id id := c]> m !! k = Some p ->
               is_digest_key k = true /\ exists id, k = hash_id id).
  { intros id m c Hm k p [[<- _]|[_ Hk]]%lookup_insert_Some.
    - split; [apply hash_id_is_digest_key|eexists; reflexivity].
    - eapply Hm, Hk. }
  destruct Hstep as [st|st st' e HC|addr st|addr st|addr c k st _|c st
                    |rcv st st' fl HL|k err st st' fl _ HP]; unfold keys_hashed.
  - unfold Connect. destruct (connected st); exact Hinv.
  - apply Close_Ok_inv in HC as [-> _]. exact Hinv.
  - destruct (Dial_eq addr st) as (? & ? & ->). simpl. apply Hnew, Hinv.
  - destruct (Listen_socket_eq addr st) as (? & ? & ->). simpl. apply Hnew, Hinv.
  - destruct k; exact Hinv.
  - exact Hinv.
  - apply listen_Ok_inv in HL as [Hs _]. intros k p Hk. eapply Hinv, Hs, Hk.
  - apply process_Ok_inv in HP as [-> _]. exact Hinv.
Qed.

Lemma step_gates_nil st st' : step st st' -> gates_nil st -> gates_nil st'.
Proof.
  intros Hstep Hinv.
  assert (Hnew : forall (h : gmap nat socket) c s0,
            s_wait s0 = SigNil ->
            (forall p s, h !! p = Some s -> s_wait s = SigNil) ->
            forall p s, <[c := s0]> h !! p = Some s -> s_wait s = SigNil).
  { intros h c s0 H0 Hh p s [[_ <-]|[_ Hp]]%lookup_insert_Some; [exact H0|].
    eapply Hh, Hp. }
  destruct Hstep as [st|st st' e HC|addr st|addr st|addr c k st _|c st
                    |rcv st st' fl HL|k err st st' fl _ HP]; unfold gates_nil.
  - unfold Connect. destruct (connected st); exact Hinv.
  - apply Close_Ok_inv in HC as [_ Hh]. intros p s' Hp.
    destruct (Hh p s' Hp) as (s & Hs & ->). eapply Hinv, Hs.
  - destruct (Dial_eq addr st) as (? & ? & ->). simpl. apply Hnew; [reflexivity|apply Hinv].
  - destruct (Listen_socket_eq addr st) as (? & ? & ->). simpl.
    apply Hnew; [reflexivity|apply Hinv].
  - destruct k; exact Hinv.
  - simpl. intros p s' [(_ & s & Hs & ->)|[_ Hp]]%lookup_alter_Some.
    + simpl. eapply Hinv, Hs.
    + eapply Hinv, Hp.
  - apply listen_Ok_inv in HL as [_ Hh]. intros p s' Hp.
    destruct (Hh p s' Hp) as (s & Hs & [->|Ho]).
    + eapply Hinv, Hs.
    + rewrite (Hinv p s Hs) in Ho. discriminate.
  - apply process_Ok_inv in HP as [_ Hh]. rewrite Hh. exact Hinv.
Qed.

Lemma reachable_keys_hashed st : reachable st -> keys_hashed st.
Proof.
  intros (local & remote & uuids & Hrtc).
  revert st Hrtc. apply rtc_ind_r; [|intros st st' Hrtc Hstep IH].
  - intros k p Hk. simpl in Hk. rewrite lookup_empty in Hk. discriminate.
  - eapply step_keys_hashed; eassumption.
Qed.

Lemma reachable_gates_nil st : reachable st -> gates_nil st.
Proof.
  intros (local & remote & uuids & Hrtc).
  revert st Hrtc. apply rtc_ind_r; [|intros st st' Hrtc Hstep IH].
  - intros p s Hp. simpl in Hp. rewrite lookup_empty in Hp. discriminate.
  - eapply step_gates_nil; eassumption.
Qed.

Lemma listen_nil_gate st msg p s :
  sockets st !! hget (Header msg) "Micro-Tunnel-Id" = Some p ->
  heap st !! p = Some s ->
  s_closed s <> SigClosed -> s_wait s = SigNil ->
  listen (Some msg) st = Panic "close of nil channel".
Proof.
  intros Hk Hp Hc Hw. unfold listen, getSocket, deref. rewrite Hk, Hp. simpl.
  apply sig_ready_not_closed in Hc. rewrite Hc, Hw. reflexivity.
Qed.

Lemma reachable_st_dialed : reachable st_dialed.
Proof.
  exists "local:1"%string, "remote:2"%string, sample_uuids.
  eapply rtc_l; [apply step_Connect|].
  apply rtc_once. apply step_Dial.
Qed.

(** C2, as the code has it. [newSocket] leaves the field
    [wait] out of the socket it builds, so the gate of every socket of a
    running tunnel is the nil channel. An inbound message for a registered
    socket that is not closed finds the gate not closed, takes the default
    case and, after it has set the remote address, calls [close] on the nil
    channel: the receive loop panics. The gate is never closed and the
    message is never delivered. *)
Theorem listen_first_message_panics st msg p s :
  reachable st ->
  sockets st !! hget (Header msg) "Micro-Tunnel-Id" = Some p ->
  heap st !! p = Some s ->
  s_closed s <> SigClosed ->
  s_wait s = SigNil /\
  listen (Some msg) st = Panic "close of nil channel".
Proof.
  intros Hr Hk Hp Hc.
  pose proof (reachable_gates_nil st Hr p s Hp) as Hw.
  split; [exact Hw|]. eapply listen_nil_gate; eassumption.
Qed.

Lemma listen_first_message_panics_witness :
  s_wait (mksocket (hash_id "peer-1:9000") (sample_uuids O) SigOpen
                   "peer-1:9000" "local:1" [] SigNil) = SigNil /\
  listen (Some msg_inbound) st_dialed = Panic "close of nil channel".
Proof.
  refine (listen_first_message_panics st_dialed msg_inbound O _
            reachable_st_dialed _ _ _).
  - vm_compute. reflexivity.
  - vm_compute. reflexivity.
  - discriminate.
Defined.

(** C10. In every state a tunnel can get into by Connect, Close, Dial,
    Listen and turns of its two loops, each key of the socket table is a
    string of 64 lower-case hex characters, the digest of some identifier.
    With the empty address, Dial and Listen register their socket under the
    digest of the next UUID of the random source. *)
Theorem table_keys_are_digests st k p :
  reachable st ->
  sockets st !! k = Some p ->
  is_digest_key k = true /\
  (exists id, k = sprintf_x (Sha256.Sum (bytes_of id))) /\
  sockets (Dial "" st).1 !! hash_id (uuid_src st (uuid_next st)) = Some (Dial "" st).2.1 /\
  sockets (Listen_socket "" st).2 !! hash_id (uuid_src st (uuid_next st))
  = Some (Listen_socket "" st).1.
Proof.
  intros Hr Hk. destruct (reachable_keys_hashed st Hr k p Hk) as [Hd Hid].
  split; [exact Hd|]. split; [exact Hid|]. split.
  - destruct (Dial_eq "" st) as (? & ? & ->). simpl. apply lookup_insert_eq.
  - destruct (Listen_socket_eq "" st) as (? & ? & ->). simpl. apply lookup_insert_eq.
Qed.

Lemma table_keys_are_digests_witness :
  is_digest_key (hash_id "peer-1:9000") = true /\
  (exists id, hash_id "peer-1:9000" = sprintf_x (Sha256.Sum (bytes_of id))) /\
  sockets (Dial "" st_dialed).1 !! hash_id (uuid_src st_dialed (uuid_next st_dialed))
  = Some (Dial "" st_dialed).2.1 /\
  sockets (Listen_socket "" st_dialed).2 !! hash_id (uuid_src st_dialed (uuid_next st_dialed))
  = Some (Listen_socket "" st_dialed).1.
Proof.
  refine (table_keys_are_digests st_dialed (hash_id "peer-1:9000") O
            reachable_st_dialed _).
  vm_compute. reflexivity.
Defined.

Lemma Close_closes_sockets_lazily_witness :
  exists st',
    Close st_dialed = Ok (st', None) /\
    sockets st' = sockets st_dialed /\
    closed st' = SigClosed /\
    forall k p s,
      sockets st_dialed !! k = Some p -> heap st_dialed !! p = Some s ->
      heap st' !! p = Some (socket_Close s) /\
      s_closed (socket_Close s) = SigClosed /\
      forall msg,
        hget (Header msg) "Micro-Tunnel-Id" = k ->
        listen (Some msg) st' = Ok (set_sockets (delete k (sockets st')) st', Continue) /\
        heap (set_sockets (delete k (sockets st')) st') = heap st' /\
        forall st2,
          sockets st2 !! k = Some p -> heap st2 !! p = Some (socket_Close s) ->
          listen (Some msg) st2 = Ok (set_sockets (delete k (sockets st2)) st2, Continue) /\
          heap (set_sockets (delete k (sockets st2)) st2) = heap st2.
Proof.
  apply (Close_closes_sockets_lazily st_dialed); reflexivity.
Defined.

Lemma Connect_Close_idempotent_witness :
  Connect st_dialed = (st_dialed, None) /\
  Close st_fresh = Ok (st_fresh, None) /\
  Close (set_closed SigClosed st_dialed) = Ok (set_closed SigClosed st_dialed, None).
Proof.
  split; [|split].
  - exact (proj1 (Connect_Close_idempotent st_dialed) eq_refl).
  - exact (proj1 (proj2 (Connect_Close_idempotent st_fresh)) (or_introl eq_refl)).
  - exact (proj1 (proj2 (Connect_Close_idempotent (set_closed SigClosed st_dialed)))
                 (or_intror eq_refl)).
Defined.

(* ===================================================================== *)
(** ** Every outcome of a turn of the receive loop                        *)
(* ===================================================================== *)

Lemma listen_unknown_key_dropped_aux st msg :
  sockets st !! hget (Header msg) "Micro-Tunnel-Id" = None ->
  listen (Some msg) st = Ok (st, Continue).
Proof. intros Hk. unfold listen, getSocket. rewrite Hk. reflexivity. Qed.

(** The six ways a turn of [listen] can go, by what is received, what the
    table and the heap hold and the two signals of the socket. *)
Lemma listen_cases rcv st :
  (rcv = None /\ listen rcv st = Ok (st, Return)) \/
  (exists msg, rcv = Some msg /\
     match sockets st !! msg_key msg with
     | None => listen rcv st = Ok (st, Continue)
     | Some p =>
         match heap st !! p with
         | None =>
             listen rcv st = Panic "invalid memory address or nil pointer dereference"
         | Some s =>
             if sig_ready (s_closed s) then
               listen rcv st
               = Ok (set_sockets (delete (msg_key msg) (sockets st)) st, Continue)
             else
               match s_wait s with
               | SigNil => listen rcv st = Panic "close of nil channel"
               | _ =>
                   exists s',
                     listen rcv st = Ok (set_heap (<[p := s']> (heap st)) st, Continue) /\
                     s_id s' = s_id s /\ s_closed s' = s_closed s /\
                     s_wait s' = SigClosed /\
                     s_recv s' = try_send (s_recv s)
                                   {| m_id := msg_key msg;
                                      m_session := hget (Header msg) "Micro-Tunnel-Session";
                                      m_data := {| Header := Header msg; Body := Body msg |} |}
               end
         end
     end).
Proof.
  destruct rcv as [msg|]; [right|left; split; reflexivity].
  exists msg. split; [reflexivity|]. unfold msg_key.
  destruct (sockets st !! hget (Header msg) "Micro-Tunnel-Id") as [p|] eqn:Hk.
  2:{ apply listen_unknown_key_dropped_aux. exact Hk. }
  destruct (heap st !! p) as [s|] eqn:Hp.
  2:{ unfold listen, getSocket, deref. rewrite Hk, Hp. reflexivity. }
  destruct (sig_ready (s_closed s)) eqn:Hc.
  { apply (listen_closed_socket st msg p s); [exact Hk|exact Hp|].
    apply sig_ready_closed. exact Hc. }
  apply sig_ready_not_closed in Hc.
  destruct (s_wait s) eqn:Hw.
  - eapply listen_nil_gate; eassumption.
  - pose proof (listen_deliver st msg p s Hk Hp Hc) as Hd. rewrite Hw in Hd.
    eexists. split; [apply Hd; discriminate|]. repeat split.
  - pose proof (listen_deliver st msg p s Hk Hp Hc) as Hd. rewrite Hw in Hd.
    eexists. split; [apply Hd; discriminate|]. repeat split. exact Hw.
Qed.

(* ===================================================================== *)
(** ** More that every step keeps                                         *)
(* ===================================================================== *)

Lemma Close_Ok_heap st st' e :
  Close st = Ok (st', e) ->
  sockets st' = sockets st /\ next st' = next st /\
  forall p, heap st' !! p = heap st !! p \/
            exists s, heap st !! p = Some s /\ heap st' !! p = Some (socket_Close s).
Proof.
  unfold Close. destruct (connected st); simpl.
  - destruct (closed st) eqn:Hs; simpl; rewrite ?Hs; simpl; intros [= <- _].
    + split; [reflexivity|]. split; [reflexivity|]. simpl. intros p.
      rewrite foldr_alter_lookup by apply socket_Close_idemp.
      destruct (decide (p ∈ (map_to_list (sockets st)).*2)); [|left; reflexivity].
      destruct (heap st !! p) as [s|]; [right|left; reflexivity].
      exists s. split; reflexivity.
    + repeat split. left. reflexivity.
  - intros [= <- _]. repeat split. left. reflexivity.
Qed.

Lemma process_Ok_frame k err st st' fl :
  process k err st = Ok (st', fl) ->
  sockets st' = sockets st /\ heap st' = heap st /\ next st' = next st /\
  connected st' = connected st /\ closed st' = closed st.
Proof.
  destruct k as [msg|]; unfold process.
  - destruct (Header (m_data msg)); simpl; [discriminate|].
    destruct err; intros [= <- _]; repeat split.
  - intros [= <- _]. repeat split.
Qed.

(** Registering a new socket under its key at the next free pointer. *)
Lemma register_consistent st st' key s0 :
  sockets st' = <[key := next st]> (sockets st) ->
  heap st' = <[next st := s0]> (heap st) ->
  next st' = S (next st) ->
  s_id s0 = key ->
  table_consistent st -> table_consistent st'.
Proof.
  intros Hs Hh Hn Hid [Ht Hb]. split.
  - intros k p. rewrite Hs, Hh.
    intros [[<- <-]|[Hne Hk]]%lookup_insert_Some.
    + exists s0. split; [apply lookup_insert_eq|exact Hid].
    + destruct (Ht k p Hk) as (s & Hp & Hsid). exists s. split; [|exact Hsid].
      rewrite lookup_insert_ne; [exact Hp|]. apply Hb in Hp. lia.
  - intros p s. rewrite Hh, Hn.
    intros [[<- _]|[_ Hp]]%lookup_insert_Some; [lia|]. apply Hb in Hp. lia.
Qed.

Lemma step_table_consistent st st' :
  step st st' -> table_consistent st -> table_consistent st'.
Proof.
  intros Hstep Hinv.
  destruct Hstep as [st|st st' e HC|addr st|addr st|addr c k st _|c st
                    |rcv st st' fl HL|k err st st' fl _ HP].
  - unfold Connect. destruct (connected st); exact Hinv.
  - apply Close_Ok_heap in HC as (Hs & Hn & Hh). destruct Hinv as [Ht Hb]. split.
    + intros k p. rewrite Hs. intros Hk. destruct (Ht k p Hk) as (s & Hp & Hid).
      destruct (Hh p) as [E|(s1 & Hp1 & E)].
      * exists s. rewrite E. split; assumption.
      * exists (socket_Close s1). split; [exact E|].
        rewrite Hp in Hp1. injection Hp1 as <-. exact Hid.
    + intros p s' Hp'. rewrite Hn.
      destruct (Hh p) as [E|(s1 & Hp1 & _)].
      * rewrite E in Hp'. eapply Hb, Hp'.
      * eapply Hb, Hp1.
  - destruct (Dial_eq addr st) as (? & ? & E). rewrite E. simpl.
    eapply register_consistent; [reflexivity..|exact Hinv].
  - destruct (Listen_socket_eq addr st) as (? & ? & E). rewrite E. simpl.
    eapply register_consistent; [reflexivity..|exact Hinv].
  - destruct k; exact Hinv.
  - destruct Hinv as [Ht Hb]. split; simpl.
    + intros k p Hk. destruct (Ht k p Hk) as (s & Hp & Hid).
      exists (if decide (c = p) then socket_Close s else s).
      destruct (decide (c = p)) as [->|Hne];
        [rewrite lookup_alter_eq|rewrite lookup_alter_ne by exact Hne];
        rewrite Hp; split; first [reflexivity|exact Hid].
    + intros p s' [(_ & s & Hs & _)|[_ Hp]]%lookup_alter_Some; eapply Hb; eassumption.
  - destruct Hinv as [Ht Hb].
    destruct (listen_cases rcv st) as [[_ E]|(msg & _ & E)].
    { rewrite E in HL. injection HL as <- _. split; assumption. }
    destruct (sockets st !! msg_key msg) as [p|] eqn:Hk.
    2:{ rewrite E in HL. injection HL as <- _. split; assumption. }
    destruct (heap st !! p) as [s|] eqn:Hp; [|rewrite E in HL; discriminate].
    destruct (sig_ready (s_closed s)).
    { rewrite E in HL. injection HL as <- _. split; simpl; [|exact Hb].
      intros k q [_ Hq]%lookup_delete_Some. apply Ht, Hq. }
    destruct (s_wait s); [rewrite E in HL; discriminate| |];
      destruct E as (s' & E & Hid & _); rewrite E in HL; injection HL as <- _;
      (split; simpl;
       [ intros k q Hq; destruct (Ht k q Hq) as (sq & Hsq & Hidq);
         destruct (decide (q = p)) as [->|Hne];
         [ exists s'; rewrite lookup_insert_eq; split; [reflexivity|];
           rewrite Hp in Hsq; injection Hsq as <-; congruence
         | exists sq; rewrite lookup_insert_ne by congruence; split; assumption ]
       | intros q sq [[<- _]|[_ Hq]]%lookup_insert_Some; eapply Hb; eassumption ]).
  - apply process_Ok_frame in HP as (Hs & Hh & Hn & _). destruct Hinv as [Ht Hb].
    split; [rewrite Hs, Hh; exact Ht|rewrite Hh, Hn; exact Hb].
Qed.

Lemma reachable_table_consistent st : reachable st -> table_consistent st.
Proof.
  intros (local & remote & uuids & Hrtc).
  revert st Hrtc. apply rtc_ind_r; [|intros st st' Hrtc Hstep IH].
  - split; simpl; intros ? ? H; rewrite lookup_empty in H; discriminate.
  - eapply step_table_consistent; eassumption.
Qed.

Lemma reachable_step st st' : reachable st -> step st st' -> reachable st'.
Proof.
  intros (local & remote & uuids & Hrtc) Hstep.
  exists local, remote, uuids. eapply rtc_r; eassumption.
Qed.

Lemma step_queues_empty st st' :
  step st st' -> gates_nil st -> queues_empty st -> queues_empty st'.
Proof.
  intros Hstep Hg Hinv.
  assert (Hnew : forall (h : gmap nat socket) c s0,
            s_recv s0 = [] ->
            (forall p s, h !! p = Some s -> s_recv s = []) ->
            forall p s, <[c := s0]> h !! p = Some s -> s_recv s = []).
  { intros h c s0 H0 Hh p s [[_ <-]|[_ Hp]]%lookup_insert_Some; [exact H0|].
    eapply Hh, Hp. }
  destruct Hstep as [st|st st' e HC|addr st|addr st|addr c k st _|c st
                    |rcv st st' fl HL|k err st st' fl _ HP]; unfold queues_empty.
  - unfold Connect. destruct (connected st); exact Hinv.
  - apply Close_Ok_heap in HC as (_ & _ & Hh). intros p s' Hp'.
    destruct (Hh p) as [E|(s1 & Hp1 & E)].
    + rewrite E in Hp'. eapply Hinv, Hp'.
    + rewrite E in Hp'. injection Hp' as <-. simpl. eapply Hinv, Hp1.
  - destruct (Dial_eq addr st) as (? & ? & ->). simpl. apply Hnew; [reflexivity|apply Hinv].
  - destruct (Listen_socket_eq addr st) as (? & ? & ->). simpl.
    apply Hnew; [reflexivity|apply Hinv].
  - destruct k; exact Hinv.
  - simpl. intros p s' [(_ & s & Hs & ->)|[_ Hp]]%lookup_alter_Some.
    + simpl. eapply Hinv, Hs.
    + eapply Hinv, Hp.
  - destruct (listen_cases rcv st) as [[_ E]|(msg & _ & E)].
    { rewrite E in HL. injection HL as <- _. exact Hinv. }
    destruct (sockets st !! msg_key msg) as [p|] eqn:Hk.
    2:{ rewrite E in HL. injection HL as <- _. exact Hinv. }
    destruct (heap st !! p) as [s|] eqn:Hp; [|rewrite E in HL; discriminate].
    destruct (sig_ready (s_closed s)).
    { rewrite E in HL. injection HL as <- _. exact Hinv. }
    rewrite (Hg p s Hp) in E. rewrite E in HL. discriminate.
  - apply process_Ok_frame in HP as (_ & Hh & _). rewrite Hh. exact Hinv.
Qed.

Lemma reachable_queues_empty st : reachable st -> queues_empty st.
Proof.
  intros (local & remote & uuids & Hrtc).
  revert st Hrtc. apply rtc_ind_r; [|intros st st' Hrtc Hstep IH].
  - intros p s Hp. simpl in Hp. rewrite lookup_empty in Hp. discriminate.
  - eapply step_queues_empty; [exact Hstep| |exact IH].
    apply reachable_gates_nil. exists local, remote, uuids. exact Hrtc.
Qed.

(* ===================================================================== *)
(** ** Further properties of the tunnel                                   *)
(* ===================================================================== *)

(** X1. In every state a tunnel can get into, each entry of the socket table
    points to a socket that exists and whose id is the key of the entry; no
    pointer in use is at or above the next one to be handed out. *)
Theorem table_entries_consistent st k p :
  reachable st ->
  sockets st !! k = Some p ->
  exists s, heap st !! p = Some s /\ s_id s = k /\ (p < next st)%nat.
Proof.
  intros Hr Hk. destruct (reachable_table_consistent st Hr) as [Ht Hb].
  destruct (Ht k p Hk) as (s & Hp & Hid).
  exists s. split; [exact Hp|]. split; [exact Hid|]. eapply Hb, Hp.
Qed.

Lemma table_entries_consistent_witness :
  exists s, heap st_dialed !! O = Some s /\ s_id s = hash_id "peer-1:9000" /\
            (O < next st_dialed)%nat.
Proof.
  refine (table_entries_consistent st_dialed (hash_id "peer-1:9000") O
            reachable_st_dialed _).
  vm_compute. reflexivity.
Defined.

(** X2. In every state a tunnel can get into, the inbound queue of every
    socket is empty: the receive loop has never handed a message to any
    socket. *)
Theorem inbound_queues_stay_empty st p s :
  reachable st ->
  heap st !! p = Some s ->
  s_recv s = [].
Proof. intros Hr Hp. eapply reachable_queues_empty; eassumption. Qed.

Lemma inbound_queues_stay_empty_witness :
  s_recv (mksocket (hash_id "peer-1:9000") (sample_uuids O) SigOpen
                   "peer-1:9000" "local:1" [] SigNil) = [].
Proof.
  refine (inbound_queues_stay_empty st_dialed O _ reachable_st_dialed _).
  vm_compute. reflexivity.
Defined.

(** X3. In every state a tunnel can get into, the [select] of [Listen] can
    never take the case of the gate: [Listen] returns no Listener. The case
    of the closed signal can be taken exactly when the socket is closed, and
    whatever case can be taken returns the error "error creating socket". *)
Theorem Listen_never_returns_listener st addr c :
  reachable st ->
  (LWait ∉ Listen_ready c st) /\
  (LClosed ∈ Listen_ready c st <->
   exists s, heap st !! c = Some s /\ s_closed s = SigClosed) /\
  (forall k, k ∈ Listen_ready c st ->
     Listen_return addr c k st = (st, (None, Some "error creating socket"%string))).
Proof.
  intros Hr. pose proof (reachable_gates_nil st Hr) as Hg.
  destruct (heap st !! c) as [s|] eqn:Hc.
  - assert (Hl : Listen_ready c st = if sig_ready (s_closed s) then [LClosed] else []).
    { rewrite (Listen_ready_cases c st s Hc), (Hg c s Hc). simpl. apply app_nil_r. }
    rewrite Hl. split; [|split].
    + destruct (sig_ready (s_closed s)); rewrite list_elem_of_In; simpl;
        intuition discriminate.
    + split.
      * intros Hin. exists s. split; [reflexivity|]. apply sig_ready_closed.
        destruct (sig_ready (s_closed s)); [reflexivity|].
        apply elem_of_nil in Hin. destruct Hin.
      * intros (s' & [= <-] & Hs'). apply sig_ready_closed in Hs'. rewrite Hs'.
        apply elem_of_cons. left. reflexivity.
    + intros k Hin. destruct (sig_ready (s_closed s));
        [|apply elem_of_nil in Hin; destruct Hin].
      apply elem_of_cons in Hin as [->|Hin]; [reflexivity|].
      apply elem_of_nil in Hin. destruct Hin.
  - unfold Listen_ready. rewrite Hc. split; [apply not_elem_of_nil|]. split.
    + split; [intros Hin; apply elem_of_nil in Hin; destruct Hin|].
      intros (s' & [=] & _).
    + intros k Hin. apply elem_of_nil in Hin. destruct Hin.
Qed.

Lemma Listen_never_returns_listener_witness :
  (LWait ∉ Listen_ready O st_dialed) /\
  (LClosed ∈ Listen_ready O st_dialed <->
   exists s, heap st_dialed !! O = Some s /\ s_closed s = SigClosed) /\
  (forall k, k ∈ Listen_ready O st_dialed ->
     Listen_return "peer-1:9000" O k st_dialed
     = (st_dialed, (None, Some "error creating socket"%string))).
Proof.
  exact (Listen_never_returns_listener st_dialed "peer-1:9000" O reachable_st_dialed).
Defined.

Lemma process_send_wire st msg rest err :
  send st = msg :: rest ->
  Header (m_data msg) <> HNil ->
  process (PSend msg) err st
  = Ok (set_link_sent (link_sent st ++ [wire msg]) (set_send rest st), Continue).
Proof.
  intros Hq Hh. unfold process, wire. rewrite Hq.
  destruct (Header (m_data msg)); [congruence|]. simpl. destruct err; reflexivity.
Qed.

Lemma process_loop_prefix errs :
  forall st,
    Forall (fun m => Header (m_data m) <> HNil) (send st) ->
    process_loop errs st
    = Ok (set_link_sent (link_sent st ++ map wire (firstn (length errs) (send st)))
                        (set_send (skipn (length errs) (send st)) st)).
Proof.
  induction errs as [|err errs IH]; intros st Hq.
  - destruct st. simpl. unfold set_link_sent, set_send. simpl.
    rewrite app_nil_r. reflexivity.
  - cbn [process_loop]. destruct (send st) as [|msg rest] eqn:Es.
    + destruct st. simpl in *. subst. unfold set_link_sent, set_send. simpl.
      rewrite app_nil_r. reflexivity.
    + apply Forall_cons in Hq as [Hm Hrest].
      rewrite (process_send_wire st msg rest err Es Hm). simpl.
      rewrite IH by exact Hrest. simpl.
      unfold set_link_sent, set_send. simpl. rewrite <- app_assoc. reflexivity.
Qed.

(** X4. The send loop forwards in queue order. When every envelope in the
    outbound queue has a header map, [n] turns of the loop (whatever the link
    answers to each Send) hand the wire forms of the first [n] envelopes to
    the link in the order they were queued, after whatever was sent before,
    and leave the rest of the queue as it was; with fewer than [n] queued the
    loop sends them all and waits. Nothing else of the state changes. *)
Theorem process_loop_fifo errs st :
  Forall (fun m => Header (m_data m) <> HNil) (send st) ->
  process_loop errs st
  = Ok (set_link_sent (link_sent st ++ map wire (firstn (length errs) (send st)))
                      (set_send (skipn (length errs) (send st)) st)).
Proof. apply process_loop_prefix. Qed.

Lemma process_loop_fifo_witness :
  process_loop [None; Some "link down"%string] (set_send [env_1; env_2] st_dialed)
  = Ok (set_link_sent [wire env_1; wire env_2] (set_send [] (set_send [env_1; env_2] st_dialed))).
Proof.
  refine (process_loop_fifo [None; Some "link down"%string]
            (set_send [env_1; env_2] st_dialed) _).
  repeat constructor; discriminate.
Defined.

Lemma wire_headers msg :
  Header (m_data msg) <> HNil ->
  msg_key (wire msg) = m_id msg /\
  hget (Header (wire msg)) "Micro-Tunnel-Session" = m_session msg /\
  (forall k, k <> "Micro-Tunnel-Id"%string -> k <> "Micro-Tunnel-Session"%string ->
     hget (Header (wire msg)) k = hget (Header (m_data msg)) k) /\
  Body (wire msg) = Body (m_data msg).
Proof.
  intros Hh. unfold msg_key, wire.
  destruct (Header (m_data msg)) as [|h]; [congruence|]. simpl.
  split; [|split; [|split; [|reflexivity]]].
  - rewrite lookup_insert_ne by discriminate. rewrite lookup_insert_eq. reflexivity.
  - rewrite lookup_insert_eq. reflexivity.
  - intros k Hk1 Hk2. rewrite !lookup_insert_ne by congruence. reflexivity.
Qed.

(** X5. What goes out comes back as the same envelope. For an envelope with
    a header map at the head of the outbound queue, the send loop hands its
    wire form to the link; the wire form carries the envelope's socket key
    and session under the two routing headers (over whatever the payload had
    there), every other header and the body unchanged. A receive loop that
    gets this wire message looks up the envelope's socket key: with no such
    socket it drops the message, and with an open socket whose gate is
    closed and whose queue has room it appends an envelope with the same
    socket key and session and the wire message as payload. *)
Theorem wire_round_trip st msg rest err :
  send st = msg :: rest ->
  Header (m_data msg) <> HNil ->
  process (PSend msg) err st
  = Ok (set_link_sent (link_sent st ++ [wire msg]) (set_send rest st), Continue) /\
  msg_key (wire msg) = m_id msg /\
  hget (Header (wire msg)) "Micro-Tunnel-Session" = m_session msg /\
  (forall k, k <> "Micro-Tunnel-Id"%string -> k <> "Micro-Tunnel-Session"%string ->
     hget (Header (wire msg)) k = hget (Header (m_data msg)) k) /\
  Body (wire msg) = Body (m_data msg) /\
  (forall st2, sockets st2 !! m_id msg = None ->
     listen (Some (wire msg)) st2 = Ok (st2, Continue)) /\
  (forall st2 p s,
     sockets st2 !! m_id msg = Some p -> heap st2 !! p = Some s ->
     s_closed s <> SigClosed -> s_wait s = SigClosed ->
     (length (s_recv s) < 128)%nat ->
     listen (Some (wire msg)) st2
     = Ok (set_heap
             (<[p := set_s_recv (s_recv s ++ [ {| m_id := m_id msg;
                                                  m_session := m_session msg;
                                                  m_data := wire msg |} ]) s]>
                (heap st2)) st2,
           Continue)).
Proof.
  intros Hq Hh. destruct (wire_headers msg Hh) as (Hid & Hsess & Hother & Hbody).
  split; [apply process_send_wire; assumption|].
  split; [exact Hid|]. split; [exact Hsess|]. split; [exact Hother|].
  split; [exact Hbody|]. unfold msg_key in Hid. split.
  - intros st2 Hk. apply listen_unknown_key_dropped_aux. rewrite Hid. exact Hk.
  - intros st2 p s Hk Hp Hc Hw Hlen.
    pose proof (listen_deliver st2 (wire msg) p s) as Hd.
    rewrite Hid, Hsess, Hw in Hd. cbv beta iota zeta in Hd.
    rewrite Hd; [|assumption|assumption|assumption|discriminate].
    unfold try_send, chan_cap.
    apply Nat.ltb_lt in Hlen. rewrite Hlen.
    destruct (wire msg). reflexivity.
Qed.

Lemma wire_round_trip_witness :
  process (PSend env_2) None (set_send [env_2] st_dialed)
  = Ok (set_link_sent (link_sent (set_send [env_2] st_dialed) ++ [wire env_2])
                      (set_send [] (set_send [env_2] st_dialed)), Continue) /\
  msg_key (wire env_2) = m_id env_2 /\
  hget (Header (wire env_2)) "Micro-Tunnel-Session" = m_session env_2 /\
  (forall k, k <> "Micro-Tunnel-Id"%string -> k <> "Micro-Tunnel-Session"%string ->
     hget (Header (wire env_2)) k = hget (Header (m_data env_2)) k) /\
  Body (wire env_2) = Body (m_data env_2) /\
  (forall st2, sockets st2 !! m_id env_2 = None ->
     listen (Some (wire env_2)) st2 = Ok (st2, Continue)) /\
  (forall st2 p s,
     sockets st2 !! m_id env_2 = Some p -> heap st2 !! p = Some s ->
     s_closed s <> SigClosed -> s_wait s = SigClosed ->
     (length (s_recv s) < 128)%nat ->
     listen (Some (wire env_2)) st2
     = Ok (set_heap
             (<[p := set_s_recv (s_recv s ++ [ {| m_id := m_id env_2;
                                                  m_session := m_session env_2;
                                                  m_data := wire env_2 |} ]) s]>
                (heap st2)) st2,
           Continue)).
Proof.
  refine (wire_round_trip (set_send [env_2] st_dialed) env_2 [] None eq_refl _).
  discriminate.
Defined.

Lemma pointer_registered (m : gmap string nat) p :
  p ∈ (map_to_list m).*2 -> exists k, m !! k = Some p.
Proof.
  intros ([k q] & -> & Hin)%list_elem_of_fmap. exists k.
  apply elem_of_map_to_list. exact Hin.
Qed.

Lemma close_sockets_unregistered st p :
  (forall k, sockets st !! k <> Some p) ->
  heap (close_sockets st) !! p = heap st !! p.
Proof.
  intros Hp. unfold close_sockets. simpl.
  rewrite foldr_alter_lookup by apply socket_Close_idemp.
  destruct (decide (p ∈ (map_to_list (sockets st)).*2)) as [Hin|_]; [|reflexivity].
  apply pointer_registered in Hin as (k & Hk). destruct (Hp k Hk).
Qed.

(** X6. [Close] closes the sockets it finds in the table and no others. A
    socket that a second Dial of the same address has pushed out of the
    table is not closed when the tunnel is closed: after Dial, Dial, Close
    the second socket is closed and the first is still open. *)
Theorem Close_misses_replaced_socket st a :
  reachable st -> connected st = true -> closed st = SigOpen -> a <> ""%string ->
  exists st1 c1 st2 c2 st3 s1 s2,
    Dial a st = (st1, (c1, None)) /\
    Dial a st1 = (st2, (c2, None)) /\
    Close st2 = Ok (st3, None) /\
    heap st3 !! c1 = Some s1 /\ s_closed s1 = SigOpen /\
    heap st3 !! c2 = Some s2 /\ s_closed s2 = SigClosed /\
    heap st3 !! c1 = heap st2 !! c1.
Proof.
  intros Hr Hc Ho Ha. destruct (reachable_table_consistent st Hr) as [Ht Hb].
  destruct (Dial_eq a st) as (session1 & un1 & E1).
  destruct (Dial_eq a (Dial a st).1) as (session2 & un2 & E2).
  rewrite E1 in E2. simpl in E2.
  rewrite (effective_id_nonempty a _ Ha) in E1.
  rewrite !(effective_id_nonempty a _ Ha) in E2.
  eexists _, _, _, _, _, _, _. split; [exact E1|]. split; [exact E2|].
  match goal with |- context [Close ?X] => set (st2 := X) end.
  assert (H1 : heap st2 !! next st
               = Some (mksocket (hash_id a) session1 SigOpen a (link_Local st) [] SigNil)).
  { subst st2. simpl. rewrite lookup_insert_ne by lia. apply lookup_insert_eq. }
  assert (Hun : heap (close_sockets st2) !! next st = heap st2 !! next st).
  { apply close_sockets_unregistered. subst st2. simpl. intros k Hk.
    apply lookup_insert_Some in Hk as [[_ Hk]|[Hne Hk]]; [lia|].
    rewrite lookup_insert_ne in Hk by congruence.
    destruct (Ht k _ Hk) as (s & Hs & _). apply Hb in Hs. lia. }
  assert (Hreg : heap (close_sockets st2) !! S (next st)
                 = Some (socket_Close (mksocket (hash_id a) session2 SigOpen a
                                                (link_Local st) [] SigNil))).
  { apply (close_sockets_registered st2 (hash_id a)); subst st2; simpl;
      apply lookup_insert_eq. }
  split; [apply Close_open; [exact Hc|exact Ho]|].
  fold st2.
  change (heap (set_connected false (set_closed SigClosed (close_sockets st2))))
    with (heap (close_sockets st2)).
  rewrite Hun, Hreg, H1. repeat split.
Qed.

Lemma Close_misses_replaced_socket_witness :
  exists st1 c1 st2 c2 st3 s1 s2,
    Dial "peer-1:9000" st_dialed = (st1, (c1, None)) /\
    Dial "peer-1:9000" st1 = (st2, (c2, None)) /\
    Close st2 = Ok (st3, None) /\
    heap st3 !! c1 = Some s1 /\ s_closed s1 = SigOpen /\
    heap st3 !! c2 = Some s2 /\ s_closed s2 = SigClosed /\
    heap st3 !! c1 = heap st2 !! c1.
Proof.
  refine (Close_misses_replaced_socket st_dialed "peer-1:9000"
            reachable_st_dialed eq_refl eq_refl _).
  discriminate.
Defined.

(** X7. A reconnect does not bring sockets back. After [Close] and then
    [Connect] on a tunnel that was connected, the tunnel is connected again
    with an open shutdown signal and its two loops started once more, the
    table is the one before the Close, and every socket is as the Close left
    it: those in the table are still closed, so the first inbound message for
    one of them only removes its entry. *)
Theorem Close_then_Connect st :
  connected st = true -> closed st = SigOpen ->
  exists st1,
    Close st = Ok (st1, None) /\
    (Connect st1).2 = None /\
    connected (Connect st1).1 = true /\
    closed (Connect st1).1 = SigOpen /\
    spawned (Connect st1).1 = spawned st ++ [GoProcess; GoListen] /\
    sockets (Connect st1).1 = sockets st /\
    heap (Connect st1).1 = heap st1 /\
    forall k p s msg,
      sockets st !! k = Some p -> heap st !! p = Some s -> msg_key msg = k ->
      heap (Connect st1).1 !! p = Some (socket_Close s) /\
      listen (Some msg) (Connect st1).1
      = Ok (set_sockets (delete k (sockets st)) (Connect st1).1, Continue).
Proof.
  intros Hc Ho. eexists. split; [apply Close_open; assumption|].
  do 6 (split; [reflexivity|]).
  intros k p s msg Hk Hp Hid.
  pose proof (close_sockets_registered st k p s Hk Hp) as Hp'.
  split; [exact Hp'|]. unfold msg_key in Hid. rewrite <- Hid.
  match goal with |- listen _ ?X = _ =>
    apply (listen_closed_socket X msg p (socket_Close s))
  end.
  - unfold getSocket. rewrite Hid. exact Hk.
  - exact Hp'.
  - reflexivity.
Qed.

Lemma Close_then_Connect_witness :
  exists st1,
    Close st_dialed = Ok (st1, None) /\
    (Connect st1).2 = None /\
    connected (Connect st1).1 = true /\
    closed (Connect st1).1 = SigOpen /\
    spawned (Connect st1).1 = spawned st_dialed ++ [GoProcess; GoListen] /\
    sockets (Connect st1).1 = sockets st_dialed /\
    heap (Connect st1).1 = heap st1 /\
    forall k p s msg,
      sockets st_dialed !! k = Some p -> heap st_dialed !! p = Some s -> msg_key msg = k ->
      heap (Connect st1).1 !! p = Some (socket_Close s) /\
      listen (Some msg) (Connect st1).1
      = Ok (set_sockets (delete k (sockets st_dialed)) (Connect st1).1, Continue).
Proof. exact (Close_then_Connect st_dialed eq_refl eq_refl). Defined.

(** With every registered socket closed, the receive loop only removes the
    entries its messages name. *)
Lemma listen_loop_all_closed msgs :
  forall st,
    all_closed st ->
    exists st2,
      listen_loop (map Some msgs) st = Ok (st2, Continue) /\
      heap st2 = heap st /\
      connected st2 = connected st /\ closed st2 = closed st /\
      forall k, sockets st2 !! k
                = if decide (k ∈ map msg_key msgs) then None else sockets st !! k.
Proof.
  induction msgs as [|msg msgs IH]; intros st Hall.
  - exists st. split; [reflexivity|]. repeat (split; [reflexivity|]).
    intros k. destruct (decide (k ∈ map msg_key [])) as [Hin|_]; [|reflexivity].
    apply elem_of_nil in Hin. destruct Hin.
  - assert (Hturn : exists st1,
              listen (Some msg) st = Ok (st1, Continue) /\
              heap st1 = heap st /\ connected st1 = connected st /\
              closed st1 = closed st /\
              sockets st1 = delete (msg_key msg) (sockets st)).
    { destruct (listen_cases (Some msg) st) as [[[=] _]|(m & [= <-] & E)].
      destruct (sockets st !! msg_key msg) as [p|] eqn:Hk.
      - destruct (Hall _ _ Hk) as (s & Hp & Hc). rewrite Hp, Hc in E. simpl in E.
        eexists. split; [exact E|]. repeat split.
      - exists st. split; [exact E|]. repeat (split; [reflexivity|]).
        symmetry. apply delete_id. exact Hk. }
    destruct Hturn as (st1 & E1 & Hh1 & Hc1 & Ho1 & Hs1).
    assert (Hall1 : all_closed st1).
    { intros k p Hk. rewrite Hs1 in Hk. apply lookup_delete_Some in Hk as [_ Hk].
      rewrite Hh1. apply Hall with k. exact Hk. }
    destruct (IH st1 Hall1) as (st2 & E2 & Hh2 & Hc2 & Ho2 & Hs2).
    exists st2. cbn [map listen_loop]. rewrite E1. simpl.
    split; [exact E2|]. split; [congruence|]. split; [congruence|].
    split; [congruence|].
    intros k. rewrite Hs2, Hs1.
    destruct (decide (k = msg_key msg)) as [->|Hne].
    + rewrite lookup_delete_eq.
      destruct (decide (msg_key msg ∈ map msg_key msgs));
        destruct (decide (msg_key msg ∈ msg_key msg :: map msg_key msgs)) as [_|Hn];
        try reflexivity; exfalso; apply Hn, elem_of_cons; left; reflexivity.
    + rewrite lookup_delete_ne by congruence.
      destruct (decide (k ∈ map msg_key msgs)) as [Hin|Hin];
        destruct (decide (k ∈ msg_key msg :: map msg_key msgs)) as [Hin'|Hin'];
        try reflexivity; exfalso.
      * apply Hin', elem_of_cons. right. exact Hin.
      * apply elem_of_cons in Hin' as [?|?]; congruence.
Qed.

(** X8. After [Close] the receive loop goes on and only cleans up. From a
    state a tunnel can get into, once a connected tunnel has been closed, any
    sequence of inbound messages is taken without a panic and without the
    loop returning, although the tunnel is disconnected and its shutdown
    signal closed; no socket changes; and the table at the end is the one at
    the Close without the keys the messages named. *)
Theorem listen_loop_after_Close st msgs :
  reachable st -> connected st = true -> closed st = SigOpen ->
  exists st1 st2,
    Close st = Ok (st1, None) /\
    listen_loop (map Some msgs) st1 = Ok (st2, Continue) /\
    heap st2 = heap st1 /\
    connected st2 = false /\ closed st2 = SigClosed /\
    forall k, sockets st2 !! k
              = if decide (k ∈ map msg_key msgs) then None else sockets st !! k.
Proof.
  intros Hr Hc Ho. destruct (reachable_table_consistent st Hr) as [Ht _].
  eexists. 
  match goal with |- exists st2, Close st = Ok (?X, None) /\ _ =>
    unify X (set_connected false (set_closed SigClosed (close_sockets st)))
  end.
  assert (Hall : all_closed (set_connected false (set_closed SigClosed (close_sockets st)))).
  { intros k p Hk. destruct (Ht k p Hk) as (s & Hp & _).
    exists (socket_Close s). split; [|reflexivity].
    apply (close_sockets_registered st k p s Hk Hp). }
  destruct (listen_loop_all_closed msgs _ Hall) as (st2 & E2 & Hh & Hc2 & Ho2 & Hs).
  exists st2. split; [apply Close_open; assumption|].
  split; [exact E2|]. split; [exact Hh|]. split; [exact Hc2|]. split; [exact Ho2|].
  exact Hs.
Qed.

Lemma listen_loop_after_Close_witness :
  exists st1 st2,
    Close st_dialed = Ok (st1, None) /\
    listen_loop (map Some [msg_inbound; msg_inbound]) st1 = Ok (st2, Continue) /\
    heap st2 = heap st1 /\
    connected st2 = false /\ closed st2 = SigClosed /\
    forall k, sockets st2 !! k
              = if decide (k ∈ map msg_key [msg_inbound; msg_inbound])
                then None else sockets st_dialed !! k.
Proof.
  exact (listen_loop_after_Close st_dialed [msg_inbound; msg_inbound]
           reachable_st_dialed eq_refl eq_refl).
Defined.

(** X9. [Dial] and [Listen] leave everything that is already there alone.
    From a state a tunnel can get into, registering a socket changes no
    socket on the heap and no table entry other than the one of the new key;
    the connection flag, the shutdown signal, the outbound queue and what was
    sent stay as they are. *)
Theorem registration_frame st addr :
  reachable st ->
  (forall p s, heap st !! p = Some s ->
     heap (Dial addr st).1 !! p = Some s /\
     heap (Listen_socket addr st).2 !! p = Some s) /\
  (forall k, k <> hash_id (effective_id addr st) ->
     sockets (Dial addr st).1 !! k = sockets st !! k /\
     sockets (Listen_socket addr st).2 !! k = sockets st !! k) /\
  (connected (Dial addr st).1, closed (Dial addr st).1,
   send (Dial addr st).1, link_sent (Dial addr st).1)
  = (connected st, closed st, send st, link_sent st) /\
  (connected (Listen_socket addr st).2, closed (Listen_socket addr st).2,
   send (Listen_socket addr st).2, link_sent (Listen_socket addr st).2)
  = (connected st, closed st, send st, link_sent st).
Proof.
  intros Hr. destruct (reachable_table_consistent st Hr) as [_ Hb].
  destruct (Dial_eq addr st) as (? & ? & ->).
  destruct (Listen_socket_eq addr st) as (? & ? & ->). simpl.
  split; [|split; [|split; reflexivity]].
  - intros p s Hp. pose proof (Hb p s Hp).
    rewrite !lookup_insert_ne by lia. split; exact Hp.
  - intros k Hk. rewrite !lookup_insert_ne by congruence. split; reflexivity.
Qed.

Lemma registration_frame_witness :
  (forall p s, heap st_dialed !! p = Some s ->
     heap (Dial "" st_dialed).1 !! p = Some s /\
     heap (Listen_socket "" st_dialed).2 !! p = Some s) /\
  (forall k, k <> hash_id (effective_id "" st_dialed) ->
     sockets (Dial "" st_dialed).1 !! k = sockets st_dialed !! k /\
     sockets (Listen_socket "" st_dialed).2 !! k = sockets st_dialed !! k) /\
  (connected (Dial "" st_dialed).1, closed (Dial "" st_dialed).1,
   send (Dial "" st_dialed).1, link_sent (Dial "" st_dialed).1)
  = (connected st_dialed, closed st_dialed, send st_dialed, link_sent st_dialed) /\
  (connected (Listen_socket "" st_dialed).2, closed (Listen_socket "" st_dialed).2,
   send (Listen_socket "" st_dialed).2, link_sent (Listen_socket "" st_dialed).2)
  = (connected st_dialed, closed st_dialed, send st_dialed, link_sent st_dialed).
Proof. exact (registration_frame st_dialed "" reachable_st_dialed). Defined.

(** X10. The session of a new socket is the next unused UUID of the random
    source. For a non-empty address [Dial] draws one UUID, the session; for
    the empty address it draws two, hashing the first into the key and
    taking the second as the session. The source itself is not changed, only
    how far it has been read. *)
Theorem Dial_draws_uuids st addr :
  exists s,
    heap (Dial addr st).1 !! (Dial addr st).2.1 = Some s /\
    s_id s = hash_id (if (String.length addr =? 0)%nat
                      then uuid_src st (uuid_next st) else addr) /\
    s_session s = uuid_src st (if (String.length addr =? 0)%nat
                               then S (uuid_next st) else uuid_next st) /\
    uuid_next (Dial addr st).1 = (if (String.length addr =? 0)%nat
                                  then S (S (uuid_next st)) else S (uuid_next st)) /\
    uuid_src (Dial addr st).1 = uuid_src st.
Proof.
  unfold Dial, newSocket, newSession, uuid_New, update_socket.
  destruct (String.length addr =? 0)%nat; simpl;
    rewrite !alter_insert_eq, lookup_insert_eq; eexists; repeat split.
Qed.

(** X11. A turn of the receive loop only ever adds to a queue. Whatever is
    received in whatever state, if the turn ends without a panic then every
    socket that was on the heap still is, with the same id and the same
    closed signal, and its inbound queue is either the one before or the one
    before with one envelope added at the end; the latter only when the
    queue held fewer than 128 envelopes. So a queue within its capacity stays
    within it, and nothing queued is lost or reordered. *)
Theorem listen_appends_only rcv st st' fl p s :
  listen rcv st = Ok (st', fl) ->
  heap st !! p = Some s ->
  exists s',
    heap st' !! p = Some s' /\
    s_id s' = s_id s /\ s_closed s' = s_closed s /\
    (s_recv s' = s_recv s \/
     (length (s_recv s) < 128)%nat /\ exists m, s_recv s' = s_recv s ++ [m]) /\
    ((length (s_recv s) <= 128)%nat -> (length (s_recv s') <= 128)%nat).
Proof.
  intros HL Hp.
  assert (Hsame : forall st0, heap st0 = heap st ->
            exists s', heap st0 !! p = Some s' /\
              s_id s' = s_id s /\ s_closed s' = s_closed s /\
              (s_recv s' = s_recv s \/
               (length (s_recv s) < 128)%nat /\ exists m, s_recv s' = s_recv s ++ [m]) /\
              ((length (s_recv s) <= 128)%nat -> (length (s_recv s') <= 128)%nat)).
  { intros st0 ->. exists s. split; [exact Hp|]. repeat split; [left; reflexivity|tauto]. }
  destruct (listen_cases rcv st) as [[_ E]|(msg & _ & E)].
  { rewrite E in HL. injection HL as <- _. apply Hsame. reflexivity. }
  destruct (sockets st !! msg_key msg) as [q|] eqn:Hk.
  2:{ rewrite E in HL. injection HL as <- _. apply Hsame. reflexivity. }
  destruct (heap st !! q) as [sq|] eqn:Hq; [|rewrite E in HL; discriminate].
  destruct (sig_ready (s_closed sq)).
  { rewrite E in HL. injection HL as <- _. apply Hsame. reflexivity. }
  assert (Hdel : forall s',
            s_id s' = s_id sq -> s_closed s' = s_closed sq ->
            s_recv s' = try_send (s_recv sq)
                          {| m_id := msg_key msg;
                             m_session := hget (Header msg) "Micro-Tunnel-Session";
                             m_data := {| Header := Header msg; Body := Body msg |} |} ->
            exists s'0,
              <[q := s']> (heap st) !! p = Some s'0 /\
              s_id s'0 = s_id s /\ s_closed s'0 = s_closed s /\
              (s_recv s'0 = s_recv s \/
               (length (s_recv s) < 128)%nat /\ exists m, s_recv s'0 = s_recv s ++ [m]) /\
              ((length (s_recv s) <= 128)%nat -> (length (s_recv s'0) <= 128)%nat)).
  { intros s' Hid Hcl Hrecv. destruct (decide (p = q)) as [->|Hne].
    - rewrite Hq in Hp. injection Hp as ->. exists s'.
      split; [apply lookup_insert_eq|]. split; [exact Hid|]. split; [exact Hcl|].
      rewrite Hrecv. unfold try_send, chan_cap.
      destruct (length (s_recv s) <? 128)%nat eqn:Hlt.
      + apply Nat.ltb_lt in Hlt. split.
        * right. split; [exact Hlt|]. eexists. reflexivity.
        * intros _. rewrite length_app. simpl. lia.
      + split; [left; reflexivity|tauto].
    - exists s. rewrite lookup_insert_ne by congruence.
      split; [exact Hp|]. repeat split; [left; reflexivity|tauto]. }
  destruct (s_wait sq); [rewrite E in HL; discriminate| |];
    destruct E as (s' & E & Hid & Hcl & _ & Hrecv);
    rewrite E in HL; injection HL as <- _; simpl; apply Hdel; assumption.
Qed.

Lemma listen_appends_only_witness :
  exists s',
    heap st_delivered !! O = Some s' /\
    s_id s' = hash_id "peer-1:9000" /\ s_closed s' = SigOpen /\
    (s_recv s' = [] \/
     (length (@nil message) < 128)%nat /\ exists m, s_recv s' = [] ++ [m]) /\
    ((length (@nil message) <= 128)%nat -> (length (s_recv s') <= 128)%nat).
Proof.
  refine (listen_appends_only (Some msg_inbound) st_gate_closed st_delivered Continue O
            (mksocket (hash_id "peer-1:9000") (sample_uuids O) SigOpen
                      "peer-1:9000" "local:1" [] SigClosed) _ _).
  - vm_compute. reflexivity.
  - vm_compute. reflexivity.
Defined.

(** X12. Dial and Listen share one key space. For a non-empty address,
    [Listen] after [Dial] of the same address takes over the table entry:
    the table is the one before both calls with the key set to the listening
    socket, and the dialed socket stays on the heap, open, as Dial left it. *)
Theorem Listen_after_Dial_replaces st a :
  a <> ""%string ->
  exists st1 c1 c2 st2 s1 s2,
    Dial a st = (st1, (c1, None)) /\
    Listen_socket a st1 = (c2, st2) /\
    sockets st2 = <[hash_id a := c2]> (sockets st) /\
    c1 <> c2 /\
    heap st1 !! c1 = Some s1 /\ heap st2 !! c1 = Some s1 /\
    s_closed s1 = SigOpen /\ s_remote s1 = a /\
    heap st2 !! c2 = Some s2 /\ s_id s2 = hash_id a /\ s_local s2 = a.
Proof.
  intros Ha.
  destruct (Dial_eq a st) as (session1 & un1 & E1).
  destruct (Listen_socket_eq a (Dial a st).1) as (session2 & un2 & E2).
  rewrite E1 in E2. simpl in E2.
  rewrite (effective_id_nonempty a _ Ha) in E1.
  rewrite !(effective_id_nonempty a _ Ha) in E2.
  eexists _, _, _, _, _, _. split; [exact E1|]. split; [exact E2|]. simpl.
  split; [apply insert_insert_eq|]. split; [lia|].
  split; [apply lookup_insert_eq|].
  split; [rewrite lookup_insert_ne by lia; apply lookup_insert_eq|].
  split; [reflexivity|]. split; [reflexivity|].
  split; [apply lookup_insert_eq|]. split; reflexivity.
Qed.

Lemma Listen_after_Dial_replaces_witness :
  exists st1 c1 c2 st2 s1 s2,
    Dial "svc-a:7000" st_fresh = (st1, (c1, None)) /\
    Listen_socket "svc-a:7000" st1 = (c2, st2) /\
    sockets st2 = <[hash_id "svc-a:7000" := c2]> (sockets st_fresh) /\
    c1 <> c2 /\
    heap st1 !! c1 = Some s1 /\ heap st2 !! c1 = Some s1 /\
    s_closed s1 = SigOpen /\ s_remote s1 = "svc-a:7000"%string /\
    heap st2 !! c2 = Some s2 /\ s_id s2 = hash_id "svc-a:7000" /\
    s_local s2 = "svc-a:7000"%string.
Proof. apply (Listen_after_Dial_replaces st_fresh "svc-a:7000"). discriminate. Defined.

(** X13. The receive loop does not look at the tunnel's state of
    connection. A turn gives the same outcome, and the same changes to the
    table and the sockets, whatever the connected flag and the shutdown
    signal are; and the goroutine returns only when the link's Recv fails,
    leaving the state as it is. *)
Theorem listen_ignores_shutdown rcv st b c :
  listen rcv (set_connected b (set_closed c st))
  = (r <- listen rcv st ;; Ok (set_connected b (set_closed c r.1), r.2)) /\
  (forall st', listen rcv st = Ok (st', Return) <-> rcv = None /\ st' = st).
Proof.
  split.
  - unfold listen, getSocket, deref. destruct rcv as [msg|]; [|reflexivity].
    change (sockets (set_connected b (set_closed c st))) with (sockets st).
    change (heap (set_connected b (set_closed c st))) with (heap st).
    destruct (sockets st !! hget (Header msg) "Micro-Tunnel-Id") as [p|];
      [|reflexivity].
    destruct (heap st !! p) as [s|]; [|reflexivity]. simpl.
    destruct (sig_ready (s_closed s)); [reflexivity|].
    destruct (s_wait s); reflexivity.
  - intros st'. split.
    + intros HL. destruct (listen_cases rcv st) as [[-> E]|(msg & _ & E)].
      * rewrite E in HL. injection HL as <-. split; reflexivity.
      * exfalso. destruct (sockets st !! msg_key msg) as [p|];
          [|rewrite E in HL; discriminate].
        destruct (heap st !! p) as [s|]; [|rewrite E in HL; discriminate].
        destruct (sig_ready (s_closed s)); [rewrite E in HL; discriminate|].
        destruct (s_wait s); [rewrite E in HL; discriminate| |];
          destruct E as (s' & E & _); rewrite E in HL; discriminate.
    + intros [-> ->]. reflexivity.
Qed.


